(** * Parametric curves of DTE-3604: B-spline, closed subdivision curve, torus knot

    A shallow embedding of [work/mybspline.h], [work/closedsubdivisioncurve.h]
    and [work/torusknot.h], and the properties of their evaluation code.

    Conventions of the embedding.
    - A C++ [int] is a [Z]; signed overflow is undefined behaviour and is not
      reachable for vectors that fit in memory.  [a % b] is the truncated
      remainder [Z.rem a b], undefined for [b = 0].
    - A C++ [float] of the B-spline and of the subdivision curve is a
      rational number [Q]: arithmetic is exact (no rounding), the conversion
      of an [int] is [inject_Z], [std::floor] followed by the conversion to
      [int] is [Qfloor].  A division whose divisor is zero yields an infinity
      or a NaN in C++, which the exact model cannot hold: it is an undefined
      outcome.  The torus knot needs [cos] and [sin] and is embedded over
      the real numbers [R].
    - A [GMlib::DVector<T>] is a [list T].  GMlib is an external library: its
      indexing is unchecked, so a read or a write outside the vector is an
      undefined outcome; [setDim] keeps the leading elements when the
      dimension does not grow and allocates fresh storage, whose contents are
      indeterminate, when it grows.
    - A computation is an [option]: [None] is an undefined outcome. *)

From Stdlib Require Import ZArith QArith Qround Lia Lqa.
From Stdlib Require Reals.
From stdpp Require Import base option list.

Local Open Scope Z_scope.

(** ** Counted loops *)

Section Loops.
Context {S : Type}.

(** [for (int i = lo; i < hi; ++i) body] over a loop state [S]; the body
    changes neither [i] nor the bound. *)
Fixpoint for_n (cnt : nat) (i : Z) (body : Z -> S -> option S) (s : S)
  : option S :=
  match cnt with
  | O => Some s
  | Datatypes.S c => s' ← body i s; for_n c (i + 1) body s'
  end.

Definition for_ (lo hi : Z) (body : Z -> S -> option S) (s : S) : option S :=
  for_n (Z.to_nat (hi - lo)) lo body s.

Lemma for_empty lo hi body s : hi <= lo -> for_ lo hi body s = Some s.
Proof.
  intros H. unfold for_. replace (Z.to_nat (hi - lo)) with O by lia. reflexivity.
Qed.

Lemma for_step lo hi body s :
  lo < hi -> for_ lo hi body s = (s' ← body lo s; for_ (lo + 1) hi body s').
Proof.
  intros H. unfold for_.
  replace (Z.to_nat (hi - lo)) with (Datatypes.S (Z.to_nat (hi - (lo + 1)))) by lia.
  reflexivity.
Qed.

End Loops.

(** ** GMlib::DVector *)

Section DVector.
Context {A : Type}.

Definition getDim (v : list A) : Z := Z.of_nat (length v).

(** [v[i]] as an r-value. *)
Definition dv_get (v : list A) (i : Z) : option A :=
  if 0 <=? i then v !! Z.to_nat i else None.

(** [v[i] = x]. *)
Definition dv_set (v : list A) (i : Z) (x : A) : option (list A) :=
  if (0 <=? i) && (i <? getDim v) then Some (<[Z.to_nat i := x]> v) else None.

(** [DVector(n, x)]: a vector of [n] copies of [x]. *)
Definition dv_make (n : Z) (x : A) : option (list A) :=
  if 0 <=? n then Some (replicate (Z.to_nat n) x) else None.

(** [v.setDim(n)].  [fresh i] is the indeterminate content of slot [i] of
    newly allocated storage. *)
Definition setDim (fresh : nat -> A) (n : Z) (v : list A) : option (list A) :=
  if n <? 0 then None
  else if getDim v <? n then Some (fresh <$> seq 0 (Z.to_nat n))
  else Some (take (Z.to_nat n) v).

Lemma dv_get_Some v i x :
  dv_get v i = Some x <-> 0 <= i /\ v !! Z.to_nat i = Some x.
Proof.
  unfold dv_get. destruct (Z.leb_spec 0 i) as [Hi|Hi]; split.
  - intros Hx. split; assumption.
  - intros [_ Hx]. exact Hx.
  - discriminate.
  - intros [Hi' _]. lia.
Qed.

Lemma dv_get_inbounds v i : 0 <= i < getDim v -> is_Some (dv_get v i).
Proof.
  intros H. unfold dv_get, getDim in *.
  destruct (Z.leb_spec 0 i); [|lia]. apply lookup_lt_is_Some. lia.
Qed.

Lemma dv_get_outside v i : ~ (0 <= i < getDim v) -> dv_get v i = None.
Proof.
  intros H. unfold dv_get, getDim in *.
  destruct (Z.leb_spec 0 i); [|reflexivity]. apply lookup_ge_None. lia.
Qed.

Lemma dv_get_nil i : dv_get (@nil A) i = None.
Proof. apply dv_get_outside. unfold getDim. simpl. lia. Qed.

Lemma dv_set_inbounds v i x :
  0 <= i < getDim v -> dv_set v i x = Some (<[Z.to_nat i := x]> v).
Proof.
  intros H. unfold dv_set.
  destruct (Z.leb_spec 0 i); [|lia]. destruct (Z.ltb_spec i (getDim v)); [|lia].
  reflexivity.
Qed.

Lemma getDim_insert v (i : nat) x : getDim (<[i := x]> v) = getDim v.
Proof. unfold getDim. now rewrite length_insert. Qed.

Lemma dv_get_insert v (i : Z) j x :
  0 <= i < getDim v ->
  dv_get (<[Z.to_nat i := x]> v) j = if i =? j then Some x else dv_get v j.
Proof.
  intros H. unfold dv_get, getDim in *.
  destruct (Z.eqb_spec i j) as [->|Hne].
  - destruct (Z.leb_spec 0 j); [|lia]. apply list_lookup_insert_eq. lia.
  - destruct (Z.leb_spec 0 j); [|reflexivity].
    apply list_lookup_insert_ne. lia.
Qed.

Lemma setDim_length fresh n v w :
  setDim fresh n v = Some w -> getDim w = n.
Proof.
  unfold setDim, getDim.
  destruct (Z.ltb_spec n 0); [discriminate|].
  destruct (Z.ltb_spec (Z.of_nat (length v)) n); intros [= <-].
  - rewrite length_fmap, length_seq. lia.
  - rewrite length_take. lia.
Qed.

Lemma setDim_nonneg fresh n v : 0 <= n -> is_Some (setDim fresh n v).
Proof.
  intros H. unfold setDim. destruct (Z.ltb_spec n 0); [lia|].
  destruct (getDim v <? n); eauto.
Qed.

(** Filling the slots [lo .. lo+cnt-1] of a vector, one write per
    iteration. *)
Lemma for_n_fill (f : Z -> A) cnt : forall lo v,
  0 <= lo -> lo + Z.of_nat cnt <= getDim v ->
  exists w,
    for_n cnt lo (fun i u => dv_set u i (f i)) v = Some w
    /\ getDim w = getDim v
    /\ forall j, dv_get w j =
         if (lo <=? j) && (j <? lo + Z.of_nat cnt) then Some (f j) else dv_get v j.
Proof.
  induction cnt as [|c IH]; intros lo v Hlo Hhi.
  - exists v. split; [reflexivity|]. split; [reflexivity|].
    intros j. destruct (Z.leb_spec lo j), (Z.ltb_spec j (lo + Z.of_nat 0)); simpl; try reflexivity; lia.
  - simpl for_n. rewrite dv_set_inbounds by lia. simpl.
    destruct (IH (lo + 1) (<[Z.to_nat lo := f lo]> v)) as (w & Hw & Hdim & Hget).
    + lia.
    + rewrite getDim_insert. lia.
    + exists w. split; [exact Hw|]. split; [now rewrite Hdim, getDim_insert|].
      intros j. rewrite Hget, dv_get_insert by lia.
      destruct (Z.leb_spec (lo + 1) j), (Z.ltb_spec j (lo + 1 + Z.of_nat c)),
               (Z.leb_spec lo j), (Z.ltb_spec j (lo + Z.of_nat (Datatypes.S c))),
               (Z.eqb_spec lo j); simpl; try reflexivity; try lia; congruence.
Qed.

Lemma for_fill (f : Z -> A) lo hi v :
  0 <= lo -> hi <= getDim v ->
  exists w,
    for_ lo hi (fun i u => dv_set u i (f i)) v = Some w
    /\ getDim w = getDim v
    /\ forall j, dv_get w j =
         if (lo <=? j) && (j <? hi) then Some (f j) else dv_get v j.
Proof.
  intros Hlo Hhi. destruct (Z.le_gt_cases hi lo) as [Hle|Hgt].
  - exists v. rewrite for_empty by lia. split; [reflexivity|]. split; [reflexivity|].
    intros j. destruct (Z.leb_spec lo j), (Z.ltb_spec j hi); simpl; try reflexivity; lia.
  - unfold for_.
    destruct (for_n_fill f (Z.to_nat (hi - lo)) lo v) as (w & Hw & Hdim & Hget); [lia|lia|].
    exists w. split; [exact Hw|]. split; [exact Hdim|].
    intros j. rewrite Hget. replace (lo + Z.of_nat (Z.to_nat (hi - lo))) with hi by lia.
    reflexivity.
Qed.
End DVector.

(** ** Loops that fill a vector *)

Section Fill.
Context {A : Type}.

Lemma for_n_ext {S : Type} (body body' : Z -> S -> option S) cnt : forall lo s,
  (forall i s, lo <= i < lo + Z.of_nat cnt -> body i s = body' i s) ->
  for_n cnt lo body s = for_n cnt lo body' s.
Proof.
  induction cnt as [|c IH]; intros lo s H; cbn [for_n]; [reflexivity|].
  rewrite (H lo s) by lia. destruct (body' lo s) as [s'|]; [|reflexivity].
  cbn [mbind option_bind]. apply IH. intros i s0 Hi. apply H. lia.
Qed.

(** A loop whose body is a total function of the loop state. *)
Lemma for_n_iter {S : Type} (f : S -> S) (body : Z -> S -> option S) cnt :
  forall lo s,
  (forall i s, lo <= i < lo + Z.of_nat cnt -> body i s = Some (f s)) ->
  for_n cnt lo body s = Some (Nat.iter cnt f s).
Proof.
  induction cnt as [|c IH]; intros lo s H; [reflexivity|].
  rewrite Nat.iter_succ_r. cbn [for_n]. rewrite (H lo s) by lia.
  cbn [mbind option_bind]. apply IH. intros i s0 Hi. apply H. lia.
Qed.

Lemma dv_ext (v w : list A) : (forall j, dv_get v j = dv_get w j) -> v = w.
Proof.
  intros H. apply list_eq. intros i. specialize (H (Z.of_nat i)).
  unfold dv_get in H. destruct (Z.leb_spec 0 (Z.of_nat i)); [|lia].
  now rewrite Nat2Z.id in H.
Qed.

Lemma dv_get_tabulate (f : Z -> A) n j :
  dv_get (f <$> seqZ 0 n) j = if (0 <=? j) && (j <? n) then Some (f j) else None.
Proof.
  unfold dv_get. destruct (Z.leb_spec 0 j); [|reflexivity]. cbn [andb].
  rewrite list_lookup_fmap. destruct (Z.ltb_spec j n).
  - rewrite lookup_seqZ_lt by lia. cbn. f_equal. f_equal. lia.
  - rewrite lookup_seqZ_ge by lia. reflexivity.
Qed.

Lemma getDim_tabulate (f : Z -> A) n : 0 <= n -> getDim (f <$> seqZ 0 n) = n.
Proof. intros H. unfold getDim. rewrite length_fmap, length_seqZ. lia. Qed.

Lemma getDim_make n (x : A) v : dv_make n x = Some v -> getDim v = n.
Proof.
  unfold dv_make. destruct (Z.leb_spec 0 n); [|discriminate].
  intros [= <-]. unfold getDim. rewrite length_replicate. lia.
Qed.

(** One write per iteration, slot [i] in iteration [i]. *)
Lemma for_tabulate (f : Z -> A) n v :
  getDim v = n ->
  for_ 0 n (fun i u => dv_set u i (f i)) v = Some (f <$> seqZ 0 n).
Proof.
  intros Hn. destruct (for_fill f 0 n v) as (w & Hw & Hdim & Hget); [lia|lia|].
  rewrite Hw. f_equal. apply dv_ext. intros j.
  rewrite Hget, dv_get_tabulate.
  destruct ((0 <=? j) && (j <? n)) eqn:E; [reflexivity|].
  apply dv_get_outside. rewrite Hn.
  destruct (Z.leb_spec 0 j), (Z.ltb_spec j n); cbn in E; try discriminate; lia.
Qed.

Lemma even_double i : Z.even (2 * i) = true.
Proof. rewrite Z.even_mul. reflexivity. Qed.

Lemma even_double_succ i : Z.even (2 * i + 1) = false.
Proof. rewrite Z.even_add, even_double. reflexivity. Qed.

Lemma half_double i : 2 * i / 2 = i.
Proof. rewrite Z.mul_comm. apply Z.div_mul. lia. Qed.

Lemma half_double_succ i : (2 * i + 1) / 2 = i.
Proof.
  rewrite Z.add_comm, Z.mul_comm, Z.div_add by lia. reflexivity.
Qed.

(** Two writes per iteration, slots [2i] and [2i+1] in iteration [i]. *)
Lemma for_n_fill2 (g h : Z -> A) cnt : forall lo v,
  0 <= lo -> 2 * (lo + Z.of_nat cnt) <= getDim v ->
  exists w,
    for_n cnt lo (fun i u => u ← dv_set u (2 * i) (g i); dv_set u (2 * i + 1) (h i)) v
    = Some w
    /\ getDim w = getDim v
    /\ forall j, dv_get w j =
         if (2 * lo <=? j) && (j <? 2 * (lo + Z.of_nat cnt))
         then Some (if Z.even j then g (j / 2) else h (j / 2))
         else dv_get v j.
Proof.
  induction cnt as [|c IH]; intros lo v Hlo Hhi.
  - exists v. split; [reflexivity|]. split; [reflexivity|].
    intros j. destruct (Z.leb_spec (2 * lo) j), (Z.ltb_spec j (2 * (lo + Z.of_nat 0)));
      simpl; try reflexivity; lia.
  - cbn [for_n]. rewrite dv_set_inbounds by lia. cbn [mbind option_bind].
    rewrite dv_set_inbounds by (rewrite getDim_insert; lia). cbn [mbind option_bind].
    set (v1 := <[Z.to_nat (2 * lo) := g lo]> v).
    set (v2 := <[Z.to_nat (2 * lo + 1) := h lo]> v1).
    assert (Hd1 : getDim v1 = getDim v) by apply getDim_insert.
    assert (Hd2 : getDim v2 = getDim v) by (unfold v2; now rewrite getDim_insert).
    destruct (IH (lo + 1) v2) as (w & Hw & Hdim & Hget); [lia|lia|].
    exists w. split; [exact Hw|]. split; [lia|].
    intros j. rewrite Hget. unfold v2.
    rewrite dv_get_insert by lia. unfold v1. rewrite dv_get_insert by lia.
    destruct (Z.eqb_spec (2 * lo + 1) j) as [<-|N1].
    + rewrite even_double_succ, half_double_succ.
      destruct (Z.leb_spec (2 * (lo + 1)) (2 * lo + 1)),
        (Z.ltb_spec (2 * lo + 1) (2 * (lo + 1 + Z.of_nat c))),
        (Z.leb_spec (2 * lo) (2 * lo + 1)),
        (Z.ltb_spec (2 * lo + 1) (2 * (lo + Z.of_nat (Datatypes.S c))));
        simpl; try reflexivity; lia.
    + destruct (Z.eqb_spec (2 * lo) j) as [<-|N2].
      * rewrite even_double, half_double.
        destruct (Z.leb_spec (2 * (lo + 1)) (2 * lo)),
          (Z.ltb_spec (2 * lo) (2 * (lo + 1 + Z.of_nat c))),
          (Z.leb_spec (2 * lo) (2 * lo)),
          (Z.ltb_spec (2 * lo) (2 * (lo + Z.of_nat (Datatypes.S c))));
          simpl; try reflexivity; lia.
      * destruct (Z.leb_spec (2 * (lo + 1)) j),
          (Z.ltb_spec j (2 * (lo + 1 + Z.of_nat c))),
          (Z.leb_spec (2 * lo) j),
          (Z.ltb_spec j (2 * (lo + Z.of_nat (Datatypes.S c))));
          simpl; try reflexivity; lia.
Qed.

Lemma for_tabulate2 (g h : Z -> A) n v :
  0 <= n -> getDim v = 2 * n ->
  for_ 0 n (fun i u => u ← dv_set u (2 * i) (g i); dv_set u (2 * i + 1) (h i)) v
  = Some ((fun j => if Z.even j then g (j / 2) else h (j / 2)) <$> seqZ 0 (2 * n)).
Proof.
  intros Hn Hdim. unfold for_. rewrite Z.sub_0_r.
  destruct (for_n_fill2 g h (Z.to_nat n) 0 v) as (w & Hw & Hd & Hget); [lia|lia|].
  rewrite Hw. f_equal. apply dv_ext. intros j.
  rewrite Hget, dv_get_tabulate. replace (2 * (0 + Z.of_nat (Z.to_nat n))) with (2 * n) by lia.
  change (2 * 0) with 0.
  destruct ((0 <=? j) && (j <? 2 * n)) eqn:E; [reflexivity|].
  apply dv_get_outside. rewrite Hdim.
  destruct (Z.leb_spec 0 j), (Z.ltb_spec j (2 * n)); cbn in E; try discriminate; lia.
Qed.
End Fill.

(** ** GMlib::Vector<float,3> *)

Record V3 : Type := mkV3 { vx : Q; vy : Q; vz : Q }.

Definition vzero : V3 := mkV3 0 0 0.

Definition vadd (a b : V3) : V3 :=
  mkV3 (vx a + vx b) (vy a + vy b) (vz a + vz b).

Definition vsub (a b : V3) : V3 :=
  mkV3 (vx a - vx b) (vy a - vy b) (vz a - vz b).

(** [s * v], the scalar on the left. *)
Definition vscale (s : Q) (v : V3) : V3 :=
  mkV3 (s * vx v) (s * vy v) (s * vz v).

(** [v * s], the scalar on the right. *)
Definition vscale_r (v : V3) (s : Q) : V3 :=
  mkV3 (vx v * s) (vy v * s) (vz v * s).

(** A vector with its coordinates in lowest terms. *)
Definition vred (v : V3) : V3 := mkV3 (Qred (vx v)) (Qred (vy v)) (Qred (vz v)).

(** Comparisons of scalars. *)
Definition Qlt_bool (a b : Q) : bool := negb (Qle_bool b a).

Lemma Qlt_bool_iff a b : Qlt_bool a b = true <-> (a < b)%Q.
Proof.
  unfold Qlt_bool. rewrite negb_true_iff. split.
  - intros H. apply Qnot_le_lt. intros Hle. apply Qle_bool_iff in Hle. congruence.
  - intros H. destruct (Qle_bool b a) eqn:E; [|reflexivity].
    apply Qle_bool_iff in E. exfalso. apply (Qlt_not_le _ _ H E).
Qed.

(** [a / b] on floats: defined in the exact model when [b] is not zero. *)
Definition fdiv (a b : Q) : option Q :=
  if Qeq_bool b 0 then None else Some (a / b)%Q.

(** Equality of vectors as rational numbers, coordinate by coordinate. *)
Definition veq (a b : V3) : Prop :=
  (vx a == vx b)%Q /\ (vy a == vy b)%Q /\ (vz a == vz b)%Q.

Lemma veq_refl a : veq a a.
Proof. repeat split; reflexivity. Qed.


Lemma veq_trans a b c : veq a b -> veq b c -> veq a c.
Proof.
  intros (H1 & H2 & H3) (H4 & H5 & H6).
  repeat split; etransitivity; eassumption.
Qed.

Lemma vadd_veq a a' b b' : veq a a' -> veq b b' -> veq (vadd a b) (vadd a' b').
Proof.
  intros (H1 & H2 & H3) (H4 & H5 & H6). unfold vadd, veq. cbn [vx vy vz].
  rewrite H1, H2, H3, H4, H5, H6. repeat split; reflexivity.
Qed.

Lemma vadd_zero_r a b : veq b vzero -> veq (vadd a b) a.
Proof.
  intros (H1 & H2 & H3). unfold vadd, veq, vzero in *. cbn [vx vy vz] in *.
  rewrite H1, H2, H3. repeat split; ring.
Qed.


Lemma vscale_zero s v : (s == 0)%Q -> veq (vscale s v) vzero.
Proof.
  intros H. unfold vscale, veq, vzero. cbn [vx vy vz]. rewrite H. repeat split; ring.
Qed.


(** * The quadratic B-spline, [work/mybspline.h] *)

Module BSpline.

(** The object: its two member vectors and the evaluation buffer [_p] that
    it inherits from [GMlib::PCurve]. *)
Record MyB_spline : Type := mkBSpline {
  _controlPoints : list V3;
  _knotVector : list Q;
  _p : list V3
}.

Definition set_knotVector (st : MyB_spline) (kv : list Q) : MyB_spline :=
  mkBSpline (_controlPoints st) kv (_p st).

Definition set_controlPoints (st : MyB_spline) (c : list V3) : MyB_spline :=
  mkBSpline c (_knotVector st) (_p st).

Definition set_p (st : MyB_spline) (p : list V3) : MyB_spline :=
  mkBSpline (_controlPoints st) (_knotVector st) p.

(** A knot vector is non-decreasing. *)
Definition nondecreasing (kv : list Q) : Prop :=
  forall i j a b, i <= j -> dv_get kv i = Some a -> dv_get kv j = Some b -> (a <= b)%Q.

(** The value of knot [i] of the clamped uniform knot vector of [n] control
    points, in closed form. *)
Definition clamped_knot (n i : Z) : Z := Z.max 0 (Z.min (i - 2) (n - 2)).

(** [evaluateBasis(i, degree, t)].  The recursion of the source descends on
    [degree] until it is [0]; [fuel] bounds its depth. *)
Fixpoint evaluateBasis_rec (fuel : nat) (st : MyB_spline) (i degree : Z) (t : Q)
  : option Q :=
  match fuel with
  | O => None
  | Datatypes.S fuel' =>
    let kv := _knotVector st in
    if degree =? 0 then
      in_span ← (ki ← dv_get kv i;
                 if Qle_bool ki t
                 then ki1 ← dv_get kv (i + 1); Some (Qlt_bool t ki1)
                 else Some false);
      hit ← (if in_span : bool then Some true
             else kl ← dv_get kv (getDim kv - 1);
                  Some (Qeq_bool t kl && (i =? getDim (_controlPoints st) - 1)));
      Some (if hit : bool then 1%Q else 0%Q)
    else
      a1 ← dv_get kv (i + degree);
      b1 ← dv_get kv i;
      let denom1 := (a1 - b1)%Q in
      term1 ← (if negb (Qeq_bool denom1 0)
               then ki ← dv_get kv i;
                    q ← fdiv (t - ki) denom1;
                    r ← evaluateBasis_rec fuel' st i (degree - 1) t;
                    Some (q * r)%Q
               else Some 0%Q);
      a2 ← dv_get kv (i + degree + 1);
      b2 ← dv_get kv (i + 1);
      let denom2 := (a2 - b2)%Q in
      term2 ← (if negb (Qeq_bool denom2 0)
               then kj ← dv_get kv (i + degree + 1);
                    q ← fdiv (kj - t) denom2;
                    r ← evaluateBasis_rec fuel' st (i + 1) (degree - 1) t;
                    Some (q * r)%Q
               else Some 0%Q);
      Some (term1 + term2)%Q
  end.

(** A negative [degree] never reaches the base case. *)
Definition evaluateBasis (st : MyB_spline) (i degree : Z) (t : Q) : option Q :=
  if degree <? 0 then None
  else evaluateBasis_rec (Datatypes.S (Z.to_nat degree)) st i degree t.

(** [getStartP] and [getEndP]. *)
Definition getStartP (st : MyB_spline) : option Q := dv_get (_knotVector st) 2.

Definition getEndP (st : MyB_spline) : option Q :=
  dv_get (_knotVector st) (getDim (_knotVector st) - 3).

(** The knot-span search of [leastSquaresFit]: the first [j] from the given
    one with [knot[j] <= t < knot[j+1]]; [span] is left as it is when the
    loop ends without a [break]. *)
Fixpoint find_span (cnt : nat) (j : Z) (kv : list Q) (t : Q) (span : Z)
  : option Z :=
  match cnt with
  | O => Some span
  | Datatypes.S c =>
    kj ← dv_get kv j;
    hit ← (if Qle_bool kj t
           then kj1 ← dv_get kv (j + 1); Some (Qlt_bool t kj1)
           else Some false);
    if hit : bool then Some j else find_span c (j + 1) kv t span
  end.

(** The triangular recursion of [leastSquaresFit] for one basis degree [d]:
    the inner loop over [r] carries [N_i] and [saved]. *)
Definition basis_degree_step (kv : list Q) (t : Q) (span d : Z) (N_i : list Q)
  : option (list Q) :=
  kl ← dv_get kv (span + 1 - d);
  let left := (t - kl)%Q in
  kr ← dv_get kv (span + d);
  let right := (kr - t)%Q in
  let saved := 0%Q in
  '(N_i, saved) ← for_ 0 d (fun r '(N_i, saved) =>
      x ← dv_get N_i r;
      ka ← dv_get kv (span + r + 1);
      kb ← dv_get kv (span + 1 - d + r);
      temp ← fdiv x (ka - kb);
      N_i ← dv_set N_i r (saved + right * temp)%Q;
      Some (N_i, (left * temp)%Q)) (N_i, saved);
  dv_set N_i d saved.

(** One row of the basis matrix: the body of the loop over the samples. *)
Definition basis_row (kv : list Q) (m n i : Z) (N : list (list Q))
  : option (list (list Q)) :=
  let k := 2 in
  t ← fdiv (inject_Z i) (inject_Z (m - 1));
  span ← find_span (Z.to_nat (n - k)) k kv t (-1);
  let span := if span =? -1 then n - 1 else span in
  N_i ← dv_make (k + 1) 0%Q;
  N_i ← dv_set N_i 0 1%Q;
  N_i ← for_ 1 (k + 1) (fun d N_i => basis_degree_step kv t span d N_i) N_i;
  for_ 0 (k + 1) (fun j N =>
      x ← dv_get N_i j;
      row ← dv_get N i;
      row ← dv_set row (span - k + j) x;
      dv_set N i row) N.

(** The knot of index [i], for an index inside the knot vector. *)
Definition knot (st : MyB_spline) (i : Z) : Q :=
  default 0%Q (dv_get (_knotVector st) i).

(** The Cox-de Boor recursion in the words of the specification: over the
    knots [u], the final knot value [u_last] and the index [i_last] of the
    last control point.  At degree 0 the value is 1 exactly when [t] lies in
    [[u i, u (i+1))] or [t] is the final knot value and [i] is [i_last]; at
    degree [k > 0] it is [term1 + term2], a term with denominator 0 being 0. *)
Fixpoint coxDeBoor (u : Z -> Q) (u_last : Q) (i_last : Z) (k : nat) (i : Z) (t : Q)
  : Q :=
  match k with
  | O =>
    if (Qle_bool (u i) t && Qlt_bool t (u (i + 1)))
       || (Qeq_bool t u_last && (i =? i_last))
    then 1%Q else 0%Q
  | Datatypes.S k' =>
    let degree := Z.of_nat k in
    let term1 :=
      if Qeq_bool (u (i + degree)%Z - u i) 0 then 0%Q
      else ((t - u i) / (u (i + degree)%Z - u i)
            * coxDeBoor u u_last i_last k' i t)%Q in
    let term2 :=
      if Qeq_bool (u (i + degree + 1)%Z - u (i + 1)%Z) 0 then 0%Q
      else ((u (i + degree + 1)%Z - t) / (u (i + degree + 1)%Z - u (i + 1)%Z)
            * coxDeBoor u u_last i_last k' (i + 1) t)%Q in
    (term1 + term2)%Q
  end.

Section Code.
(** The indeterminate contents of freshly allocated vectors of scalars and
    of 3D vectors. *)
Variable freshS : nat -> Q.
Variable freshV : nat -> V3.

(** [generateKnotVector()]. *)
Definition generateKnotVector (st : MyB_spline) : option MyB_spline :=
  let n := getDim (_controlPoints st) in
  let k := 2 in
  let m := n + k + 1 in
  kv ← setDim freshS m (_knotVector st);
  kv ← for_ 0 (k + 1) (fun i kv => dv_set kv i 0%Q) kv;
  kv ← for_ (k + 1) (m - (k + 1)) (fun i kv => dv_set kv i (inject_Z (i - k))) kv;
  let maxValue := inject_Z (m - 2 * (k + 1) + 1) in
  kv ← for_ (m - (k + 1)) m (fun i kv => dv_set kv i maxValue) kv;
  Some (set_knotVector st kv).

(** [leastSquaresFit(p, n)].  The matrix [N] and the vector [weights] are
    locals of the source; the matrix is returned here next to the object so
    that it can be examined. *)
Definition leastSquaresFit_matrix (p : list V3) (n : Z) (st : MyB_spline)
  : option (MyB_spline * list (list Q)) :=
  let m := getDim p in
  c ← setDim freshV n (_controlPoints st);
  let st := set_controlPoints st c in
  row0 ← dv_make n 0%Q;
  N ← dv_make m row0;
  weights ← dv_make m 1%Q;
  N ← for_ 0 m (fun i N => basis_row (_knotVector st) m n i N) N;
  Some (st, N).

Definition leastSquaresFit (p : list V3) (n : Z) (st : MyB_spline)
  : option MyB_spline :=
  fst <$> leastSquaresFit_matrix p n st.

(** [eval(t, d)] writes the buffer [_p]. *)
Definition eval (st : MyB_spline) (t : Q) (d : Z) : option MyB_spline :=
  p ← setDim freshV (d + 1) (_p st);
  p ← dv_set p 0 vzero;
  let n := getDim (_controlPoints st) in
  let degree := 2 in
  p ← for_ 0 n (fun i p =>
        basisVal ← evaluateBasis st i degree t;
        c ← dv_get (_controlPoints st) i;
        p0 ← dv_get p 0;
        dv_set p 0 (vadd p0 (vscale basisVal c))) p;
  Some (set_p st p).

(** The constructor from given control points; a new object has empty
    vectors. *)
Definition MyB_spline_direct (c : list V3) : option MyB_spline :=
  generateKnotVector (mkBSpline c [] []).

(** The constructor that approximates the points [p] with [n] control
    points. *)
Definition MyB_spline_fit (p : list V3) (n : Z) : option MyB_spline :=
  st ← leastSquaresFit p n (mkBSpline [] [] []);
  generateKnotVector st.

End Code.


(** [acc + f lo + f (lo+1) + ... + f (lo+cnt-1)], added from the left. *)
Fixpoint Qsum (f : Z -> Q) (lo : Z) (cnt : nat) (acc : Q) : Q :=
  match cnt with
  | O => acc
  | Datatypes.S c => Qsum f (lo + 1) c (acc + f lo)%Q
  end.

(** [acc + f lo + ... + f (lo+cnt-1)] on vectors, added from the left. *)
Fixpoint Vsum (f : Z -> V3) (lo : Z) (cnt : nat) (acc : V3) : V3 :=
  match cnt with
  | O => acc
  | Datatypes.S c => Vsum f (lo + 1) c (vadd acc (f lo))
  end.

(** The invariant of a constructed object: one knot per control point and
    [degree + 1] more. *)
Definition well_formed (st : MyB_spline) : Prop :=
  getDim (_knotVector st) = getDim (_controlPoints st) + 3.

(** Knot [i] of the vector that [generateKnotVector] writes for [n] control
    points, [n] being any count: the last loop runs over the last three
    slots and overwrites what the first loop wrote there. *)
Definition knot_value (n i : Z) : Z :=
  if n <=? i then n - 2 else if 3 <=? i then i - 2 else 0.

Definition knot_values (n : Z) : list Q :=
  (fun i => inject_Z (knot_value n i)) <$> seqZ 0 (n + 3).

(** The basis value and the control point of index [i], as [eval] sees
    them. *)
Definition basis (st : MyB_spline) (t : Q) (i : Z) : Q :=
  coxDeBoor (knot st) (knot st (getDim (_knotVector st) - 1))
    (getDim (_controlPoints st) - 1) 2 i t.

Definition ctrl (st : MyB_spline) (i : Z) : V3 :=
  default vzero (dv_get (_controlPoints st) i).

(** *** Concrete objects *)

(** The control points of [Scenario::initializeScenario] and the B-spline
    that the direct constructor builds from them. *)
Definition scenario_controlPoints : list V3 :=
  [mkV3 (-1) 0 0; mkV3 (-1 # 2) 2 0; mkV3 0 (1 # 2) 0; mkV3 (1 # 2) (-1) 0; mkV3 1 0 0].

Definition scenario_bspline : MyB_spline :=
  mkBSpline scenario_controlPoints [0; 0; 0; 1; 2; 3; 3; 3]%Q [].

(** Four control points, the B-spline built from them in direct mode, and
    four samples that lie on it. *)
Definition fit_controlPoints : list V3 :=
  [mkV3 (-1) 0 0; mkV3 (-1 # 2) 2 0; mkV3 0 (1 # 2) 0; mkV3 (1 # 2) (-1) 0].

Definition fit_bspline : MyB_spline :=
  mkBSpline fit_controlPoints [0; 0; 0; 1; 2; 2; 2]%Q [].

Definition sample_at (st : MyB_spline) (t : Q) : option V3 :=
  st' ← eval (fun _ => vzero) st t 0; dv_get (_p st') 0.

Definition fit_parameters : list Q := [0; 2 # 3; 4 # 3; 2]%Q.

Definition fit_samples : list V3 :=
  Eval vm_compute in default [] (mapM (sample_at fit_bspline) fit_parameters).

(** Row [i] of the matrix that [leastSquaresFit] assembles from the samples
    on an object that has the knot vector of [fit_bspline], in lowest terms. *)
Definition fit_matrix_row (i : Z) : option (list Q) :=
  fit ← leastSquaresFit_matrix (fun _ => vzero) fit_samples 4
          (mkBSpline [] (_knotVector fit_bspline) []);
  row ← dv_get (snd fit : list (list Q)) i;
  Some (List.map Qred row).

(** *** The knot vector *)

Lemma generateKnotVector_get freshS st :
  2 <= getDim (_controlPoints st) ->
  exists kv, generateKnotVector freshS st = Some (set_knotVector st kv)
    /\ getDim kv = getDim (_controlPoints st) + 3
    /\ forall i, dv_get kv i =
         if (0 <=? i) && (i <? getDim (_controlPoints st) + 3)
         then Some (inject_Z (clamped_knot (getDim (_controlPoints st)) i))
         else None.
Proof.
  intros Hn. unfold generateKnotVector.
  set (n := getDim (_controlPoints st)) in *.
  destruct (setDim_nonneg freshS (n + 2 + 1) (_knotVector st)) as [kv0 Hkv0]; [lia|].
  rewrite Hkv0. simpl. apply setDim_length in Hkv0.
  destruct (for_fill (fun _ => 0%Q) 0 (2 + 1) kv0) as (kv1 & E1 & D1 & G1); [lia|lia|].
  rewrite E1. simpl.
  destruct (for_fill (fun i => inject_Z (i - 2)) (2 + 1) (n + 2 + 1 - (2 + 1)) kv1)
    as (kv2 & E2 & D2 & G2); [lia|lia|].
  rewrite E2. simpl.
  destruct (for_fill (fun _ => inject_Z (n + 2 + 1 - 2 * (2 + 1) + 1))
              (n + 2 + 1 - (2 + 1)) (n + 2 + 1) kv2)
    as (kv3 & E3 & D3 & G3); [lia|lia|].
  rewrite E3. simpl.
  exists kv3. split; [reflexivity|]. split; [lia|].
  intros i. rewrite G3, G2, G1. unfold clamped_knot.
  destruct (Z.leb_spec (n + 2 + 1 - (2 + 1)) i), (Z.ltb_spec i (n + 2 + 1)),
    (Z.leb_spec (2 + 1) i), (Z.ltb_spec i (n + 2 + 1 - (2 + 1))),
    (Z.leb_spec 0 i), (Z.ltb_spec i (2 + 1)), (Z.ltb_spec i (n + 3));
    simpl; try lia;
    try (f_equal; first [ f_equal; lia | change 0%Q with (inject_Z 0); f_equal; lia ]).
  all: apply dv_get_outside; lia.
Qed.

Lemma dv_get_knot st i :
  0 <= i < getDim (_knotVector st) -> dv_get (_knotVector st) i = Some (knot st i).
Proof.
  intros H. unfold knot. destruct (dv_get_inbounds (_knotVector st) i H) as [x ->].
  reflexivity.
Qed.

Lemma fdiv_nonzero a b : Qeq_bool b 0 = false -> fdiv a b = Some (a / b)%Q.
Proof. intros H. unfold fdiv. now rewrite H. Qed.

Lemma evaluateBasis_rec_coxDeBoor st t (k : nat) : forall i,
  0 <= i -> i + Z.of_nat k + 1 < getDim (_knotVector st) ->
  evaluateBasis_rec (Datatypes.S k) st i (Z.of_nat k) t
  = Some (coxDeBoor (knot st) (knot st (getDim (_knotVector st) - 1))
            (getDim (_controlPoints st) - 1) k i t).
Proof.
  induction k as [|k IH]; intros i Hi Hdim.
  - cbn [evaluateBasis_rec coxDeBoor]. change (Z.of_nat 0 =? 0) with true. cbv iota.
    rewrite !dv_get_knot by lia. cbn [mbind option_bind].
    destruct (Qle_bool (knot st i) t); cbn [mbind option_bind andb orb].
    + destruct (Qlt_bool t (knot st (i + 1))); cbn [mbind option_bind andb orb];
        [reflexivity|].
      destruct (Qeq_bool _ _ && _); reflexivity.
    + destruct (Qeq_bool _ _ && _); reflexivity.
  - cbn [coxDeBoor].
    assert (IHa := IH i ltac:(lia) ltac:(lia)).
    assert (IHb := IH (i + 1) ltac:(lia) ltac:(lia)). clear IH.
    remember (Datatypes.S k) as f eqn:Ef. cbn [evaluateBasis_rec].
    destruct (Z.eqb_spec (Z.of_nat f) 0) as [E|_]; [lia|].
    rewrite !dv_get_knot by lia. cbn [mbind option_bind].
    replace (Z.of_nat f - 1) with (Z.of_nat k) by lia.
    rewrite IHa, IHb.
    destruct (Qeq_bool (knot st (i + Z.of_nat f) - knot st i) 0) eqn:E1;
      cbn [negb mbind option_bind];
      [|rewrite (fdiv_nonzero _ _ E1); cbn [mbind option_bind]];
      (destruct (Qeq_bool (knot st (i + Z.of_nat f + 1) - knot st (i + 1)) 0)
         eqn:E2; cbn [negb mbind option_bind];
       [|rewrite (fdiv_nonzero _ _ E2); cbn [mbind option_bind]]);
      reflexivity.
Qed.

Lemma Qeq_bool_pos x : (0 < x)%Q -> Qeq_bool x 0 = false.
Proof.
  intros H. destruct (Qeq_bool x 0) eqn:E; [|reflexivity].
  apply Qeq_bool_iff in E. lra.
Qed.

Ltac case_denominator :=
  match goal with
  | |- context [Qeq_bool ?x 0] =>
    let E := fresh "E" in
    destruct (Qeq_bool x 0) eqn:E; [|apply Qeq_bool_neq in E]
  end.

Ltac nonzero := repeat split; first [assumption | lra].

(** *** Local support

    On a knot span [[u s, u (s+1))] that contains [t], the only basis
    function of degree 0 that is not zero is the one of index [s]; then only
    the three basis functions of degree 2 of indices [s-2], [s-1], [s] can be
    non-zero, and they sum to 1. *)

Section LocalSupport.
Variables (u : Z -> Q) (u_last : Q) (i_last : Z) (t : Q) (s lo hi : Z).
Let B (k : nat) (i : Z) : Q := coxDeBoor u u_last i_last k i t.

Hypothesis Hrange : lo <= s - 2 /\ s + 2 <= hi.
Hypothesis Hord1 : (u (s - 1) <= u s)%Q.
Hypothesis Hord2 : (u s <= t)%Q.
Hypothesis Hord3 : (t < u (s + 1))%Q.
Hypothesis Hord4 : (u (s + 1) <= u (s + 2))%Q.




Hypothesis HB0 : forall i, lo <= i <= hi -> B 0%nat i = if i =? s then 1%Q else 0%Q.

Lemma coxDeBoor_step k i :
  B (Datatypes.S k) i =
  ((if Qeq_bool (u (i + Z.of_nat (Datatypes.S k)) - u i) 0 then 0
    else (t - u i) / (u (i + Z.of_nat (Datatypes.S k)) - u i) * B k i)
   + (if Qeq_bool (u (i + Z.of_nat (Datatypes.S k) + 1) - u (i + 1)) 0 then 0
      else (u (i + Z.of_nat (Datatypes.S k) + 1) - t)
           / (u (i + Z.of_nat (Datatypes.S k) + 1) - u (i + 1)) * B k (i + 1)))%Q.
Proof. reflexivity. Qed.

Lemma coxDeBoor_zero k i :
  (B k i == 0)%Q -> (B k (i + 1) == 0)%Q -> (B (Datatypes.S k) i == 0)%Q.
Proof.
  intros H1 H2. rewrite coxDeBoor_step.
  destruct (Qeq_bool _ 0); destruct (Qeq_bool _ 0); rewrite ?H1, ?H2; ring.
Qed.

Lemma B0_zero i : lo <= i <= hi -> i <> s -> (B 0%nat i == 0)%Q.
Proof.
  intros Hi Hne. rewrite HB0 by lia. destruct (Z.eqb_spec i s); [lia|reflexivity].
Qed.

Lemma B1_zero i : lo <= i <= hi - 1 -> i <> s - 1 -> i <> s -> (B 1%nat i == 0)%Q.
Proof. intros Hi H1 H2. apply coxDeBoor_zero; apply B0_zero; lia. Qed.

Lemma B2_zero i :
  lo <= i <= hi - 2 -> i <> s - 2 -> i <> s - 1 -> i <> s -> (B 2%nat i == 0)%Q.
Proof. intros Hi H1 H2 H3. apply coxDeBoor_zero; apply B1_zero; lia. Qed.



End LocalSupport.

(** *** Sums *)

Lemma Qsum_acc f cnt : forall lo acc,
  (Qsum f lo cnt acc == acc + Qsum f lo cnt 0)%Q.
Proof.
  induction cnt as [|c IH]; intros lo acc; cbn [Qsum].
  - ring.
  - rewrite (IH (lo + 1) (acc + f lo)%Q), (IH (lo + 1) (0 + f lo)%Q). ring.
Qed.





(** *** The clamped knot vector *)

Lemma clamped_knot_mono n i j : i <= j -> clamped_knot n i <= clamped_knot n j.
Proof. unfold clamped_knot. lia. Qed.


Section Clamped.
Variables (st : MyB_spline) (n : Z) (t : Q).
Hypothesis Hn : 3 <= n.
Hypothesis Hcp : getDim (_controlPoints st) = n.
Hypothesis Hkv : getDim (_knotVector st) = n + 3.
Hypothesis Hknot :
  forall i, 0 <= i < n + 3 -> knot st i = inject_Z (clamped_knot n i).
Hypothesis Ht0 : (0 < t)%Q.
Hypothesis Ht1 : (t < inject_Z (n - 2))%Q.


End Clamped.

(** *** Properties of the knot vector and of the basis functions *)

Lemma evaluateBasis_eq st i degree t :
  0 <= degree -> 0 <= i -> i + degree + 1 < getDim (_knotVector st) ->
  evaluateBasis st i degree t
  = Some (coxDeBoor (knot st) (knot st (getDim (_knotVector st) - 1))
            (getDim (_controlPoints st) - 1) (Z.to_nat degree) i t).
Proof.
  intros Hd Hi Hb. unfold evaluateBasis.
  destruct (Z.ltb_spec degree 0); [lia|].
  rewrite <- (Z2Nat.id degree) at 2 by lia.
  apply evaluateBasis_rec_coxDeBoor; lia.
Qed.

(** C2. For a knot index [i], a degree [k >= 0] and a parameter [t],
    [evaluateBasis(i, k, t)] returns the value of the Cox-de Boor recursion
    [coxDeBoor]: at degree 0 it is 1 exactly when [t] lies in
    [[knot[i], knot[i+1])] or [t] is the final knot value and [i] the last
    control-point index, else 0; at degree [k > 0] it is [term1 + term2], and
    a term whose denominator is 0 is 0: the evaluation does not fail. *)
Theorem evaluateBasis_coxDeBoor st i k t :
  0 <= k -> 0 <= i -> i + k + 1 < getDim (_knotVector st) ->
  evaluateBasis st i k t
  = Some (coxDeBoor (knot st) (knot st (getDim (_knotVector st) - 1))
            (getDim (_controlPoints st) - 1) (Z.to_nat k) i t).
Proof. apply evaluateBasis_eq. Qed.


Lemma direct_knots freshS c st :
  3 <= getDim c -> MyB_spline_direct freshS c = Some st ->
  _controlPoints st = c
  /\ getDim (_knotVector st) = getDim c + 3
  /\ forall i, 0 <= i < getDim c + 3 ->
       dv_get (_knotVector st) i = Some (inject_Z (clamped_knot (getDim c) i)).
Proof.
  intros Hn Hst. unfold MyB_spline_direct in Hst.
  destruct (generateKnotVector_get freshS (mkBSpline c [] [])) as (kv & Hgen & Hdim & Hget);
    [cbn [_controlPoints]; lia|].
  rewrite Hgen in Hst. injection Hst as <-.
  cbn [_controlPoints set_knotVector _knotVector] in *.
  split; [reflexivity|]. split; [exact Hdim|].
  intros i Hi. rewrite Hget.
  destruct (Z.leb_spec 0 i), (Z.ltb_spec i (getDim c + 3)); simpl; try lia; reflexivity.
Qed.




(** *** Evaluation *)

Lemma eval_loop st t (b : Z -> Q) (cf : Z -> V3) cnt : forall lo acc p,
  dv_get p 0 = Some acc ->
  (forall i, lo <= i < lo + Z.of_nat cnt -> evaluateBasis st i 2 t = Some (b i)) ->
  (forall i, lo <= i < lo + Z.of_nat cnt -> dv_get (_controlPoints st) i = Some (cf i)) ->
  for_n cnt lo (fun i p =>
      basisVal ← evaluateBasis st i 2 t;
      c ← dv_get (_controlPoints st) i;
      p0 ← dv_get p 0;
      dv_set p 0 (vadd p0 (vscale basisVal c))) p
  = Some (<[0%nat := Vsum (fun i => vscale (b i) (cf i)) lo cnt acc]> p).
Proof.
  induction cnt as [|n IH]; intros lo acc p Hp Hb Hc; cbn [for_n Vsum].
  - f_equal. symmetry. apply list_insert_id.
    apply dv_get_Some in Hp. exact (proj2 Hp).
  - rewrite (Hb lo), (Hc lo), Hp by lia. cbn [mbind option_bind].
    assert (0 <= 0 < getDim p) as Hin.
    { destruct (Z.lt_ge_cases 0 (getDim p)); [lia|].
      rewrite dv_get_outside in Hp by lia. discriminate. }
    rewrite dv_set_inbounds by exact Hin. cbn [mbind option_bind].
    change (Z.to_nat 0) with 0%nat.
    rewrite (IH (lo + 1) (vadd acc (vscale (b lo) (cf lo)))).
    + now rewrite list_insert_insert_eq.
    + change 0%nat with (Z.to_nat 0). rewrite dv_get_insert by exact Hin. reflexivity.
    + intros i Hi. apply Hb. lia.
    + intros i Hi. apply Hc. lia.
Qed.

Lemma eval_buffer freshV st t d :
  well_formed st -> 0 <= d ->
  exists p0 (b : Z -> Q) (cf : Z -> V3),
    setDim freshV (d + 1) (_p st) = Some p0
    /\ (forall i, 0 <= i < getDim (_controlPoints st) ->
          evaluateBasis st i 2 t = Some (b i)
          /\ dv_get (_controlPoints st) i = Some (cf i))
    /\ eval freshV st t d
       = Some (set_p st
                 (<[0%nat := Vsum (fun i => vscale (b i) (cf i)) 0
                               (Z.to_nat (getDim (_controlPoints st))) vzero]> p0)).
Proof.
  intros Hwf Hd. unfold well_formed in Hwf.
  destruct (setDim_nonneg freshV (d + 1) (_p st)) as [p0 Hp0]; [lia|].
  set (b := fun i => coxDeBoor (knot st) (knot st (getDim (_knotVector st) - 1))
                       (getDim (_controlPoints st) - 1) 2 i t).
  set (cf := fun i => default vzero (dv_get (_controlPoints st) i)).
  exists p0, b, cf. split; [exact Hp0|].
  assert (Hb : forall i, 0 <= i < getDim (_controlPoints st) ->
                 evaluateBasis st i 2 t = Some (b i)).
  { intros i Hi. apply (evaluateBasis_eq st i 2 t); lia. }
  assert (Hc : forall i, 0 <= i < getDim (_controlPoints st) ->
                 dv_get (_controlPoints st) i = Some (cf i)).
  { intros i Hi. unfold cf.
    destruct (dv_get_inbounds (_controlPoints st) i Hi) as [x ->]. reflexivity. }
  split; [intros i Hi; split; auto|].
  unfold eval. rewrite Hp0. cbn [mbind option_bind].
  assert (Hdim := setDim_length _ _ _ _ Hp0).
  rewrite dv_set_inbounds by lia. cbn [mbind option_bind].
  unfold for_. rewrite Z.sub_0_r.
  rewrite (eval_loop st t b cf _ 0 vzero).
  - cbn [mbind option_bind]. now rewrite list_insert_insert_eq.
  - rewrite dv_get_insert by lia. reflexivity.
  - intros i Hi. apply Hb. lia.
  - intros i Hi. apply Hc. lia.
Qed.

(** C5 (amended). For every parameter [t] and derivative order [d >= 0],
    [eval] on a constructed B-spline produces a buffer of length [d + 1]
    whose entry 0 is the sum over all control points of
    [evaluateBasis(i, 2, t)] times control point [i]; it writes no other
    entry: the entries [1..d] are those that [setDim(d + 1)] left in the
    buffer. *)
Theorem eval_position freshV st t d :
  well_formed st -> 0 <= d ->
  exists p0 p (b : Z -> Q) (cf : Z -> V3),
    setDim freshV (d + 1) (_p st) = Some p0
    /\ eval freshV st t d = Some (set_p st p)
    /\ getDim p = d + 1
    /\ (forall i, 0 <= i < getDim (_controlPoints st) ->
          evaluateBasis st i 2 t = Some (b i)
          /\ dv_get (_controlPoints st) i = Some (cf i))
    /\ dv_get p 0
       = Some (Vsum (fun i => vscale (b i) (cf i)) 0
                 (Z.to_nat (getDim (_controlPoints st))) vzero)
    /\ forall j, 1 <= j <= d -> dv_get p j = dv_get p0 j.
Proof.
  intros Hwf Hd.
  destruct (eval_buffer freshV st t d Hwf Hd) as (p0 & b & cf & Hp0 & Hbc & Hev).
  assert (Hdim := setDim_length _ _ _ _ Hp0).
  eexists p0, _, b, cf. split; [exact Hp0|]. split; [exact Hev|].
  split; [now rewrite getDim_insert|]. split; [exact Hbc|]. split.
  - change 0%nat with (Z.to_nat 0). rewrite dv_get_insert by lia. reflexivity.
  - intros j Hj. change 0%nat with (Z.to_nat 0). rewrite dv_get_insert by lia.
    destruct (Z.eqb_spec 0 j); [lia|reflexivity].
Qed.

(** *** The least-squares constructor *)

Lemma basis_degree_step_no_knots t span d N_i :
  basis_degree_step [] t span d N_i = None.
Proof. unfold basis_degree_step. rewrite (dv_get_nil (span + 1 - d)). reflexivity. Qed.

Lemma basis_row_no_knots m n i N : basis_row [] m n i N = None.
Proof.
  unfold basis_row. destruct (fdiv _ _) as [t|]; [|reflexivity].
  cbn [mbind option_bind].
  destruct (Z.to_nat (n - 2)) as [|c] eqn:E; cbn [find_span].
  - cbn [mbind option_bind]. change (-1 =? -1) with true. cbv iota.
    change (dv_make (2 + 1) 0%Q) with (Some [0%Q; 0%Q; 0%Q]).
    cbn [mbind option_bind].
    change (dv_set [0%Q; 0%Q; 0%Q] 0 1%Q) with (Some [1%Q; 0%Q; 0%Q]).
    cbn [mbind option_bind].
    rewrite for_step by lia. rewrite basis_degree_step_no_knots. reflexivity.
  - rewrite (dv_get_nil 2). reflexivity.
Qed.

Lemma leastSquaresFit_matrix_no_knots freshV p n st :
  _knotVector st = [] -> 1 <= getDim p ->
  leastSquaresFit_matrix freshV p n st = None.
Proof.
  intros Hkv Hm. unfold leastSquaresFit_matrix.
  destruct (setDim freshV n (_controlPoints st)) as [c|]; [|reflexivity].
  cbn [mbind option_bind].
  destruct (dv_make n 0%Q) as [row0|]; [|reflexivity]. cbn [mbind option_bind].
  destruct (dv_make (getDim p) row0) as [N|]; [|reflexivity]. cbn [mbind option_bind].
  destruct (dv_make (getDim p) 1%Q) as [w|]; [|reflexivity]. cbn [mbind option_bind].
  rewrite for_step by lia. cbn [set_controlPoints _knotVector]. rewrite Hkv.
  rewrite basis_row_no_knots. reflexivity.
Qed.

Lemma leastSquaresFit_matrix_controlPoints freshV p n st st' N :
  leastSquaresFit_matrix freshV p n st = Some (st', N) ->
  setDim freshV n (_controlPoints st) = Some (_controlPoints st')
  /\ _knotVector st' = _knotVector st.
Proof.
  unfold leastSquaresFit_matrix.
  destruct (setDim freshV n (_controlPoints st)) as [c|]; [|discriminate].
  cbn [mbind option_bind].
  destruct (dv_make n 0%Q) as [row0|]; [|discriminate]. cbn [mbind option_bind].
  destruct (dv_make (getDim p) row0) as [N0|]; [|discriminate]. cbn [mbind option_bind].
  destruct (dv_make (getDim p) 1%Q) as [w|]; [|discriminate]. cbn [mbind option_bind].
  destruct (for_ _ _ _ _) as [N1|]; [|discriminate]. cbn [mbind option_bind].
  intros [= <- <-]. split; reflexivity.
Qed.

(** C10. In the constructor [MyB_spline(p, n)], [leastSquaresFit] runs
    before [generateKnotVector], on a knot vector of dimension 0: for
    [m >= 2] samples no read of the knot vector is in bounds, the assembly of
    the basis matrix (span search and recursion) has no defined outcome, and
    the fit assigns no computed value to the control points: whenever
    [leastSquaresFit] does return, on any object, the control points are
    those that [setDim(n)] allocated. *)
Theorem fit_reads_empty_knot_vector freshS freshV p n :
  2 <= getDim p ->
  (forall j, dv_get (_knotVector (mkBSpline [] [] [])) j = None)
  /\ (forall i N, basis_row (_knotVector (mkBSpline [] [] [])) (getDim p) n i N = None)
  /\ leastSquaresFit freshV p n (mkBSpline [] [] []) = None
  /\ MyB_spline_fit freshS freshV p n = None
  /\ (forall st st' N,
        leastSquaresFit_matrix freshV p n st = Some (st', N) ->
        setDim freshV n (_controlPoints st) = Some (_controlPoints st')).
Proof.
  intros Hm.
  assert (H : leastSquaresFit freshV p n (mkBSpline [] [] []) = None).
  { unfold leastSquaresFit. now rewrite leastSquaresFit_matrix_no_knots by (auto; lia). }
  split; [intros j; apply dv_get_nil|].
  split; [intros i N; apply basis_row_no_knots|].
  split; [exact H|]. split.
  - unfold MyB_spline_fit. now rewrite H.
  - intros st st' N HN.
    exact (proj1 (leastSquaresFit_matrix_controlPoints _ _ _ _ _ _ HN)).
Qed.

(** *** Examples and instances *)

Example scenario_bspline_direct :
  MyB_spline_direct (fun _ => 0%Q) scenario_controlPoints = Some scenario_bspline.
Proof. reflexivity. Qed.

Example scenario_basis_values :
  mapM (fun i => Qred <$> evaluateBasis scenario_bspline i 2 (3 # 2)) [0; 1; 2; 3; 4]
  = Some [0; 1 # 8; 3 # 4; 1 # 8; 0]%Q.
Proof. reflexivity. Qed.

(** The basis functions at the closed right end of the domain. *)
Example scenario_basis_values_end :
  mapM (fun i => Qred <$> evaluateBasis scenario_bspline i 2 3) [0; 1; 2; 3; 4]
  = Some [0; 0; 0; 0; 1]%Q.
Proof. reflexivity. Qed.

Lemma evaluateBasis_coxDeBoor_witness :
  evaluateBasis scenario_bspline 1 2 (3 # 2)
  = Some (coxDeBoor (knot scenario_bspline) (knot scenario_bspline 7) 4 2 1 (3 # 2)).
Proof.
  apply (evaluateBasis_coxDeBoor scenario_bspline 1 2 (3 # 2)); [lia | lia | reflexivity].
Defined.



Lemma eval_position_witness :
  exists p0 p (b : Z -> Q) (cf : Z -> V3),
    setDim (fun _ => vzero) (2 + 1) (_p scenario_bspline) = Some p0
    /\ eval (fun _ => vzero) scenario_bspline (3 # 2) 2 = Some (set_p scenario_bspline p)
    /\ getDim p = 2 + 1
    /\ (forall i, 0 <= i < getDim (_controlPoints scenario_bspline) ->
          evaluateBasis scenario_bspline i 2 (3 # 2) = Some (b i)
          /\ dv_get (_controlPoints scenario_bspline) i = Some (cf i))
    /\ dv_get p 0
       = Some (Vsum (fun i => vscale (b i) (cf i)) 0
                 (Z.to_nat (getDim (_controlPoints scenario_bspline))) vzero)
    /\ forall j, 1 <= j <= 2 -> dv_get p j = dv_get p0 j.
Proof.
  apply (eval_position (fun _ => vzero) scenario_bspline (3 # 2) 2); [reflexivity | lia].
Defined.

(** The derivative slots are not zeroed: on a buffer whose fresh storage
    holds [(1,1,1)], [eval(t, 1)] returns with slot 1 still [(1,1,1)]. *)
Lemma eval_derivative_slot_not_zero :
  exists st',
    eval (fun _ => mkV3 1 1 1) scenario_bspline (3 # 2) 1 = Some st'
    /\ getDim (_p st') = 2
    /\ dv_get (_p st') 1 = Some (mkV3 1 1 1)
    /\ dv_get (_p st') 1 <> Some vzero.
Proof.
  eexists. split; [vm_compute; reflexivity|].
  split; [reflexivity|]. split; [reflexivity|]. discriminate.
Qed.

(** C1 at a concrete input. Four samples on a degree-2 B-spline of four
    control points: the least-squares constructor has no defined outcome
    (it reads the knot vector before it exists).  Run on an object that has
    the knot vector already, [leastSquaresFit] returns with the control
    points that [setDim] allocated, not those of the B-spline, and row 0 of
    its matrix is [(2,0,0,0)] where the basis values at [t_0 = 0] are
    [(1,0,0,0)]. *)
Theorem fit_of_exact_samples :
  MyB_spline_direct (fun _ => 0%Q) fit_controlPoints = Some fit_bspline
  /\ mapM (sample_at fit_bspline) fit_parameters = Some fit_samples
  /\ MyB_spline_fit (fun _ => 0%Q) (fun _ => vzero) fit_samples 4 = None
  /\ (_controlPoints <$> leastSquaresFit (fun _ => vzero) fit_samples 4
                           (mkBSpline [] (_knotVector fit_bspline) []))
     = Some [vzero; vzero; vzero; vzero]
  /\ fit_matrix_row 0 = Some [2; 0; 0; 0]%Q
  /\ mapM (fun i => Qred <$> evaluateBasis fit_bspline i 2 0) [0; 1; 2; 3]
     = Some [1; 0; 0; 0]%Q.
Proof. repeat split; vm_compute; reflexivity. Qed.

Lemma fit_reads_empty_knot_vector_witness :
  MyB_spline_fit (fun _ => 0%Q) (fun _ => vzero) fit_samples 4 = None.
Proof.
  apply (fit_reads_empty_knot_vector (fun _ => 0%Q) (fun _ => vzero) fit_samples 4).
  unfold getDim; simpl; lia.
Defined.

(** ** Further properties *)

Lemma Vsum_ext f g cnt : forall lo acc,
  (forall i, lo <= i < lo + Z.of_nat cnt -> f i = g i) ->
  Vsum f lo cnt acc = Vsum g lo cnt acc.
Proof.
  induction cnt as [|c IH]; intros lo acc H; cbn [Vsum]; [reflexivity|].
  rewrite (H lo) by lia. apply IH. intros i Hi. apply H. lia.
Qed.

Lemma Vsum_veq f cnt : forall lo acc acc',
  veq acc acc' -> veq (Vsum f lo cnt acc) (Vsum f lo cnt acc').
Proof.
  induction cnt as [|c IH]; intros lo acc acc' H; cbn [Vsum]; [exact H|].
  apply IH. apply vadd_veq; [exact H | apply veq_refl].
Qed.

Lemma Vsum_zero f cnt : forall lo acc,
  (forall i, lo <= i < lo + Z.of_nat cnt -> veq (f i) vzero) ->
  veq (Vsum f lo cnt acc) acc.
Proof.
  induction cnt as [|c IH]; intros lo acc H; cbn [Vsum]; [apply veq_refl|].
  eapply veq_trans; [apply IH; intros i Hi; apply H; lia|].
  apply vadd_zero_r. apply H. lia.
Qed.


Lemma generateKnotVector_values freshS st :
  generateKnotVector freshS st
  = Some (set_knotVector st (knot_values (getDim (_controlPoints st)))).
Proof.
  unfold generateKnotVector.
  set (n := getDim (_controlPoints st)).
  assert (Hn : 0 <= n) by (unfold n, getDim; lia).
  destruct (setDim_nonneg freshS (n + 2 + 1) (_knotVector st)) as [kv0 Hkv0]; [lia|].
  rewrite Hkv0. cbn [mbind option_bind]. apply setDim_length in Hkv0.
  destruct (for_fill (fun _ => 0%Q) 0 (2 + 1) kv0) as (kv1 & E1 & D1 & G1); [lia|lia|].
  rewrite E1. cbn [mbind option_bind].
  destruct (for_fill (fun i => inject_Z (i - 2)) (2 + 1) (n + 2 + 1 - (2 + 1)) kv1)
    as (kv2 & E2 & D2 & G2); [lia|lia|].
  rewrite E2. cbn [mbind option_bind].
  destruct (for_fill (fun _ => inject_Z (n + 2 + 1 - 2 * (2 + 1) + 1))
              (n + 2 + 1 - (2 + 1)) (n + 2 + 1) kv2)
    as (kv3 & E3 & D3 & G3); [lia|lia|].
  rewrite E3. cbn [mbind option_bind]. do 2 f_equal.
  apply dv_ext. intros i. unfold knot_values.
  rewrite G3, G2, G1, dv_get_tabulate. unfold knot_value.
  destruct (Z.leb_spec (n + 2 + 1 - (2 + 1)) i), (Z.ltb_spec i (n + 2 + 1)),
    (Z.leb_spec (2 + 1) i), (Z.ltb_spec i (n + 2 + 1 - (2 + 1))),
    (Z.leb_spec 0 i), (Z.ltb_spec i (2 + 1)), (Z.ltb_spec i (n + 3)),
    (Z.leb_spec n i), (Z.leb_spec 3 i);
    cbn [andb]; try lia;
    try (f_equal; first [ f_equal; lia | change 0%Q with (inject_Z 0); f_equal; lia ]).
  all: apply dv_get_outside; lia.
Qed.

Lemma dv_get_knot_values n i :
  0 <= i < n + 3 -> dv_get (knot_values n) i = Some (inject_Z (knot_value n i)).
Proof.
  intros H. unfold knot_values. rewrite dv_get_tabulate.
  destruct (Z.leb_spec 0 i), (Z.ltb_spec i (n + 3)); try lia. reflexivity.
Qed.

Lemma knot_values_nondecreasing n : 0 <= n -> n <> 1 -> nondecreasing (knot_values n).
Proof.
  intros Hn Hne i j a b Hij Ha Hb.
  assert (0 <= i < n + 3) as Hi.
  { destruct (Z.le_gt_cases 0 i), (Z.lt_ge_cases i (n + 3)); try lia;
      rewrite dv_get_outside in Ha
        by (unfold knot_values; rewrite getDim_tabulate; lia); discriminate. }
  assert (0 <= j < n + 3) as Hj.
  { destruct (Z.le_gt_cases 0 j), (Z.lt_ge_cases j (n + 3)); try lia;
      rewrite dv_get_outside in Hb
        by (unfold knot_values; rewrite getDim_tabulate; lia); discriminate. }
  rewrite dv_get_knot_values in Ha, Hb by lia.
  injection Ha as <-. injection Hb as <-. rewrite <- Zle_Qle. unfold knot_value.
  destruct (Z.leb_spec n i), (Z.leb_spec 3 i), (Z.leb_spec n j), (Z.leb_spec 3 j); lia.
Qed.


(** X2. The generated knot vector is non-decreasing for every control-point
    count except 1: with one control point the knots are 0, -1, -1, -1. *)
Theorem generateKnotVector_nondecreasing_iff freshS st :
  exists kv,
    generateKnotVector freshS st = Some (set_knotVector st kv)
    /\ (nondecreasing kv <-> getDim (_controlPoints st) <> 1).
Proof.
  exists (knot_values (getDim (_controlPoints st))).
  split; [apply generateKnotVector_values|]. split.
  - intros Hnd E. rewrite E in Hnd.
    specialize (Hnd 0 1 (inject_Z 0) (inject_Z (-1)) ltac:(lia)
                  (dv_get_knot_values 1 0 ltac:(lia)) (dv_get_knot_values 1 1 ltac:(lia))).
    rewrite <- Zle_Qle in Hnd. lia.
  - intros Hne. apply knot_values_nondecreasing; [unfold getDim; lia|exact Hne].
Qed.


(** *** The values of the basis functions on a knot span

    As in the section on local support, but for any [t]: what matters is
    that the basis function of degree 0 of index [s] is the one that is 1,
    and that the span [[u s, u (s+1))] is not empty. *)

Section SpanValues.
Variables (u : Z -> Q) (u_last : Q) (i_last : Z) (t : Q) (s lo hi : Z).
Let B (k : nat) (i : Z) : Q := coxDeBoor u u_last i_last k i t.

Hypothesis Hrange : lo <= s - 2 /\ s + 2 <= hi.
Hypothesis Hspan : (u s < u (s + 1))%Q.
Hypothesis Hl : (u (s - 1) <= u s)%Q.
Hypothesis Hr : (u (s + 1) <= u (s + 2))%Q.

Lemma span_cb : (0 < u (s + 1) - u s)%Q.
Proof. lra. Qed.

Lemma span_ca : (0 < u (s + 1) - u (s - 1))%Q.
Proof. lra. Qed.

Lemma span_db : (0 < u (s + 2) - u s)%Q.
Proof. lra. Qed.

Hypothesis HB0 : forall i, lo <= i <= hi -> B 0%nat i = if i =? s then 1%Q else 0%Q.

Lemma V1_left : (B 1%nat (s - 1) == (u (s + 1) - t) / (u (s + 1) - u s))%Q.
Proof.
  unfold B. rewrite coxDeBoor_step. change (Z.of_nat 1) with 1.
  replace (s - 1 + 1) with s by lia.
  fold (B 0%nat (s - 1)). fold (B 0%nat s).
  rewrite (HB0 (s - 1)), (HB0 s) by lia.
  destruct (Z.eqb_spec (s - 1) s); [lia|]. rewrite Z.eqb_refl.
  rewrite (Qeq_bool_pos _ span_cb).
  pose proof span_cb. clear HB0.
  case_denominator; field; nonzero.
Qed.

Lemma V1_right : (B 1%nat s == (t - u s) / (u (s + 1) - u s))%Q.
Proof.
  unfold B. rewrite coxDeBoor_step. change (Z.of_nat 1) with 1.
  fold (B 0%nat (s + 1)). fold (B 0%nat s).
  rewrite (HB0 (s + 1)), (HB0 s) by lia.
  destruct (Z.eqb_spec (s + 1) s); [lia|]. rewrite Z.eqb_refl.
  rewrite (Qeq_bool_pos _ span_cb).
  pose proof span_cb. clear HB0.
  case_denominator; field; nonzero.
Qed.

Lemma V1_zero i : lo <= i <= hi - 1 -> i <> s - 1 -> i <> s -> (B 1%nat i == 0)%Q.
Proof. intros Hi H1 H2. apply (B1_zero u u_last i_last t s lo hi HB0); lia. Qed.

Lemma V2_zero i :
  lo <= i <= hi - 2 -> i <> s - 2 -> i <> s - 1 -> i <> s -> (B 2%nat i == 0)%Q.
Proof. intros Hi H1 H2 H3. apply (B2_zero u u_last i_last t s lo hi HB0); lia. Qed.

Lemma V2_a :
  (B 2%nat (s - 2)
   == (u (s + 1) - t) / (u (s + 1) - u (s - 1))
      * ((u (s + 1) - t) / (u (s + 1) - u s)))%Q.
Proof.
  unfold B. rewrite (coxDeBoor_step u u_last i_last t 1 (s - 2)).
  change (Z.of_nat 2) with 2.
  replace (s - 2 + 2 + 1) with (s + 1) by lia.
  replace (s - 2 + 2) with s by lia.
  replace (s - 2 + 1) with (s - 1) by lia.
  fold (B 1%nat (s - 2)). fold (B 1%nat (s - 1)).
  rewrite (Qeq_bool_pos _ span_ca).
  assert (Z1 := V1_zero (s - 2) ltac:(lia) ltac:(lia) ltac:(lia)).
  pose proof V1_left as L. pose proof span_ca. pose proof span_cb. clear HB0.
  case_denominator; rewrite ?Z1, L; field; nonzero.
Qed.

Lemma V2_b :
  (B 2%nat (s - 1)
   == (t - u (s - 1)) / (u (s + 1) - u (s - 1))
      * ((u (s + 1) - t) / (u (s + 1) - u s))
      + (u (s + 2) - t) / (u (s + 2) - u s)
        * ((t - u s) / (u (s + 1) - u s)))%Q.
Proof.
  unfold B. rewrite (coxDeBoor_step u u_last i_last t 1 (s - 1)).
  change (Z.of_nat 2) with 2.
  replace (s - 1 + 2 + 1) with (s + 2) by lia.
  replace (s - 1 + 2) with (s + 1) by lia.
  replace (s - 1 + 1) with s by lia.
  fold (B 1%nat (s - 1)). fold (B 1%nat s).
  rewrite (Qeq_bool_pos _ span_ca), (Qeq_bool_pos _ span_db).
  rewrite V1_left, V1_right. reflexivity.
Qed.

Lemma V2_c :
  (B 2%nat s
   == (t - u s) / (u (s + 2) - u s) * ((t - u s) / (u (s + 1) - u s)))%Q.
Proof.
  unfold B. rewrite (coxDeBoor_step u u_last i_last t 1 s).
  change (Z.of_nat 2) with 2.
  replace (s + 2 + 1) with (s + 3) by lia.
  fold (B 1%nat s). fold (B 1%nat (s + 1)).
  rewrite (Qeq_bool_pos _ span_db).
  assert (Z2 := V1_zero (s + 1) ltac:(lia) ltac:(lia) ltac:(lia)).
  pose proof V1_right as R. pose proof span_db. pose proof span_cb. clear HB0.
  case_denominator; rewrite ?Z2, R; field; nonzero.
Qed.
End SpanValues.

(** *** The basis functions of a constructed B-spline *)

Section ClampedValues.
Variables (st : MyB_spline) (n : Z) (t : Q).
Hypothesis Hn : 3 <= n.
Hypothesis Hcp : getDim (_controlPoints st) = n.
Hypothesis Hkv : getDim (_knotVector st) = n + 3.
Hypothesis Hknot :
  forall i, 0 <= i < n + 3 -> knot st i = inject_Z (clamped_knot n i).

Let B (k : nat) (i : Z) : Q :=
  coxDeBoor (knot st) (knot st (getDim (_knotVector st) - 1))
    (getDim (_controlPoints st) - 1) k i t.

(** [t] in the knot span [[j, j+1)]. *)
Lemma B0_in_span j i :
  0 <= j <= n - 3 -> (inject_Z j <= t)%Q -> (t < inject_Z (j + 1))%Q ->
  0 <= i <= n + 1 ->
  B 0%nat i = if i =? j + 2 then 1%Q else 0%Q.
Proof.
  intros Hj Hj1 Hj2 Hi. unfold B. cbn [coxDeBoor]. rewrite Hkv, !Hknot by lia.
  replace (clamped_knot n (n + 3 - 1)) with (n - 2) by (unfold clamped_knot; lia).
  assert (inject_Z (j + 1) <= inject_Z (n - 2))%Q as Hle0 by (rewrite <- Zle_Qle; lia).
  assert (Qeq_bool t (inject_Z (n - 2)) = false) as ->.
  { destruct (Qeq_bool t (inject_Z (n - 2))) eqn:E; [|reflexivity].
    apply Qeq_bool_iff in E. lra. }
  cbn [andb]. rewrite orb_false_r.
  destruct (Z.eqb_spec i (j + 2)) as [->|Hne].
  - replace (clamped_knot n (j + 2)) with j by (unfold clamped_knot; lia).
    replace (clamped_knot n (j + 2 + 1)) with (j + 1) by (unfold clamped_knot; lia).
    apply Qle_bool_iff in Hj1. apply Qlt_bool_iff in Hj2. now rewrite Hj1, Hj2.
  - destruct (Z.lt_ge_cases i (j + 2)) as [Hlt|Hge].
    + assert (inject_Z (clamped_knot n (i + 1)) <= inject_Z j)%Q as Hle
        by (rewrite <- Zle_Qle; unfold clamped_knot; lia).
      destruct (Qlt_bool t (inject_Z (clamped_knot n (i + 1)))) eqn:E.
      * apply Qlt_bool_iff in E. lra.
      * now rewrite andb_false_r.
    + assert (inject_Z (j + 1) <= inject_Z (clamped_knot n i))%Q as Hle
        by (rewrite <- Zle_Qle; unfold clamped_knot; lia).
      destruct (Qle_bool (inject_Z (clamped_knot n i)) t) eqn:E.
      * apply Qle_bool_iff in E. lra.
      * reflexivity.
Qed.

(** [t] at the closed right end of the domain. *)
Lemma B0_at_end i :
  (t == inject_Z (n - 2))%Q -> 0 <= i <= n + 1 ->
  B 0%nat i = if i =? n - 1 then 1%Q else 0%Q.
Proof.
  intros Ht Hi. unfold B. cbn [coxDeBoor]. rewrite Hkv, Hcp, !Hknot by lia.
  replace (clamped_knot n (n + 3 - 1)) with (n - 2) by (unfold clamped_knot; lia).
  apply Qeq_bool_iff in Ht as Ht'. rewrite Ht'. cbn [andb].
  assert (inject_Z (clamped_knot n (i + 1)) <= inject_Z (n - 2))%Q as Hle
    by (rewrite <- Zle_Qle; unfold clamped_knot; lia).
  assert (Qlt_bool t (inject_Z (clamped_knot n (i + 1))) = false) as ->.
  { destruct (Qlt_bool t (inject_Z (clamped_knot n (i + 1)))) eqn:E; [|reflexivity].
    apply Qlt_bool_iff in E. lra. }
  rewrite andb_false_r. reflexivity.
Qed.

(** [t] outside the domain. *)
Lemma B0_outside i :
  (t < 0)%Q \/ (inject_Z (n - 2) < t)%Q -> 0 <= i <= n + 1 ->
  B 0%nat i = 0%Q.
Proof.
  intros Ht Hi. unfold B. cbn [coxDeBoor]. rewrite Hkv, !Hknot by lia.
  replace (clamped_knot n (n + 3 - 1)) with (n - 2) by (unfold clamped_knot; lia).
  assert (inject_Z 1 <= inject_Z (n - 2))%Q as H1 by (rewrite <- Zle_Qle; lia).
  change (inject_Z 1) with 1%Q in H1.
  assert (Qeq_bool t (inject_Z (n - 2)) = false) as ->.
  { destruct (Qeq_bool t (inject_Z (n - 2))) eqn:E; [|reflexivity].
    apply Qeq_bool_iff in E. lra. }
  cbn [andb]. rewrite orb_false_r.
  assert (inject_Z 0 <= inject_Z (clamped_knot n i))%Q as Hlo
    by (rewrite <- Zle_Qle; unfold clamped_knot; lia).
  assert (inject_Z (clamped_knot n (i + 1)) <= inject_Z (n - 2))%Q as Hhi
    by (rewrite <- Zle_Qle; unfold clamped_knot; lia).
  change (inject_Z 0) with 0%Q in Hlo.
  destruct Ht as [Ht|Ht].
  - destruct (Qle_bool (inject_Z (clamped_knot n i)) t) eqn:E; [|reflexivity].
    apply Qle_bool_iff in E. lra.
  - destruct (Qlt_bool t (inject_Z (clamped_knot n (i + 1)))) eqn:E.
    + apply Qlt_bool_iff in E. lra.
    + now rewrite andb_false_r.
Qed.

Lemma B2_outside i :
  (t < 0)%Q \/ (inject_Z (n - 2) < t)%Q -> 0 <= i <= n - 1 -> (B 2%nat i == 0)%Q.
Proof.
  intros Ht Hi. unfold B.
  apply coxDeBoor_zero; apply coxDeBoor_zero; cbv beta;
    fold (B 0%nat i); fold (B 0%nat (i + 1)); fold (B 0%nat (i + 1 + 1));
    rewrite B0_outside by (auto; lia); reflexivity.
Qed.

Lemma knot_order a b : 0 <= a -> a <= b -> b < n + 3 -> (knot st a <= knot st b)%Q.
Proof.
  intros Ha Hab Hb. rewrite !Hknot by lia. rewrite <- Zle_Qle.
  now apply clamped_knot_mono.
Qed.

Lemma knot_span j : 0 <= j <= n - 3 -> (knot st (j + 2) < knot st (j + 2 + 1))%Q.
Proof.
  intros Hj. rewrite !Hknot by lia. rewrite <- Zlt_Qlt. unfold clamped_knot. lia.
Qed.


(** At the end of the domain the last basis function is 1, the others
    are 0. *)
Lemma B2_at_end i :
  (t == inject_Z (n - 2))%Q -> 0 <= i <= n - 1 ->
  (B 2%nat i == if i =? n - 1 then 1 else 0)%Q.
Proof.
  intros Ht Hi.
  assert (HB0 : forall i, 0 <= i <= n + 1 ->
                  B 0%nat i = if i =? n - 1 then 1%Q else 0%Q)
    by (intros k Hk; now apply B0_at_end).
  assert (Hs := knot_span (n - 3) ltac:(lia)).
  replace (n - 3 + 2 + 1) with (n - 1 + 1) in Hs by lia.
  replace (n - 3 + 2) with (n - 1) in Hs by lia.
  assert (Hl := knot_order (n - 1 - 1) (n - 1) ltac:(lia) ltac:(lia) ltac:(lia)).
  assert (Hr := knot_order (n - 1 + 1) (n - 1 + 2) ltac:(lia) ltac:(lia) ltac:(lia)).
  assert (Kb : (knot st (n - 1) == inject_Z (n - 2) - 1)%Q).
  { rewrite Hknot by lia.
    replace (clamped_knot n (n - 1)) with (n - 2 + -1) by (unfold clamped_knot; lia).
    rewrite inject_Z_plus. reflexivity. }
  assert (Kc : knot st (n - 1 + 1) = inject_Z (n - 2)).
  { rewrite Hknot by lia. f_equal. unfold clamped_knot. lia. }
  assert (Kd : knot st (n - 1 + 2) = inject_Z (n - 2)).
  { rewrite Hknot by lia. f_equal. unfold clamped_knot. lia. }
  destruct (Z.eqb_spec i (n - 1)) as [->|N0].
  - unfold B.
    rewrite (V2_c (knot st) _ _ t (n - 1) 0 (n + 1)); try assumption; [|lia].
    rewrite Kc, Kd, Kb, Ht. field; nonzero.
  - destruct (Z.eq_dec i (n - 1 - 1)) as [->|N1].
    + unfold B.
      rewrite (V2_b (knot st) _ _ t (n - 1) 0 (n + 1)); try assumption; [|lia].
      rewrite Kc, Kd, Ht. unfold Qdiv. ring.
    + destruct (Z.eq_dec i (n - 1 - 2)) as [->|N2].
      * unfold B.
        rewrite (V2_a (knot st) _ _ t (n - 1) 0 (n + 1)); try assumption; [|lia].
        rewrite Kc, Ht. unfold Qdiv. ring.
      * unfold B. apply (B2_zero (knot st) _ _ t (n - 1) 0 (n + 1) HB0); lia.
Qed.
End ClampedValues.

(** *** Evaluation at the ends of the domain and outside it *)

Lemma eval_position_explicit freshV st t d :
  well_formed st -> 0 <= d ->
  exists st',
    eval freshV st t d = Some st'
    /\ dv_get (_p st') 0
       = Some (Vsum (fun i => vscale (basis st t i) (ctrl st i)) 0
                 (Z.to_nat (getDim (_controlPoints st))) vzero).
Proof.
  intros Hwf Hd.
  destruct (eval_buffer freshV st t d Hwf Hd) as (p0 & b & cf & Hp0 & Hbc & Hev).
  assert (Hdim := setDim_length _ _ _ _ Hp0).
  eexists. split; [exact Hev|]. cbn [_p set_p].
  change 0%nat with (Z.to_nat 0). rewrite dv_get_insert by lia.
  rewrite Z.eqb_refl. f_equal. apply Vsum_ext. intros i Hi.
  destruct (Hbc i ltac:(lia)) as [Hb Hc]. unfold basis, ctrl.
  rewrite (evaluateBasis_eq st i 2 t) in Hb by (unfold well_formed in Hwf; lia).
  injection Hb as <-. rewrite Hc. reflexivity.
Qed.

Lemma direct_clamped freshS c st buf :
  3 <= getDim c -> MyB_spline_direct freshS c = Some st ->
  well_formed (set_p st buf)
  /\ _controlPoints (set_p st buf) = c
  /\ getDim (_knotVector (set_p st buf)) = getDim c + 3
  /\ forall i, 0 <= i < getDim c + 3 ->
       knot (set_p st buf) i = inject_Z (clamped_knot (getDim c) i).
Proof.
  intros Hn Hst. destruct (direct_knots freshS c st Hn Hst) as (Hc & Hdim & Hin).
  unfold well_formed, knot. cbn [set_p _controlPoints _knotVector].
  rewrite Hc. repeat split; try assumption.
  intros i Hi. now rewrite Hin.
Qed.


(** X5. Outside the domain every basis function is 0: for [t] below
    [getStartP] or above [getEndP], [eval] is defined and returns the zero
    vector as position. *)
Theorem eval_outside_domain_is_zero freshS freshV c st buf t d :
  3 <= getDim c -> MyB_spline_direct freshS c = Some st -> 0 <= d ->
  (t < 0)%Q \/ (inject_Z (getDim c - 2) < t)%Q ->
  (forall i, 0 <= i < getDim c ->
     exists v, evaluateBasis st i 2 t = Some v /\ (v == 0)%Q)
  /\ exists st' p,
       eval freshV (set_p st buf) t d = Some st'
       /\ dv_get (_p st') 0 = Some p /\ veq p vzero.
Proof.
  intros Hn Hst Hd Ht.
  destruct (direct_clamped freshS c st (_p st) Hn Hst) as (Hwf0 & Hc0 & Hkv0 & Hknot0).
  destruct (direct_clamped freshS c st buf Hn Hst) as (Hwf & Hc & Hkv & Hknot).
  split.
  - intros i Hi. eexists. split.
    + apply (evaluateBasis_eq st i 2 t); try lia.
      cbn [set_p _knotVector] in Hkv0. lia.
    + cbn [set_p _controlPoints] in Hc0.
      apply (B2_outside (set_p st (_p st)) (getDim c) t Hn Hkv0 Hknot0 i Ht). lia.
  - destruct (eval_position_explicit freshV (set_p st buf) t d Hwf Hd) as (s0 & E0 & P0).
    exists s0. eexists. split; [exact E0|]. split; [exact P0|].
    apply Vsum_zero. intros i Hi. apply vscale_zero.
    apply (B2_outside (set_p st buf) (getDim c) t Hn Hkv Hknot i Ht). rewrite Hc in Hi. lia.
Qed.

(** *** Bounds of the basis functions *)

Lemma Qdiv_nonneg x y : (0 <= x)%Q -> (0 < y)%Q -> (0 <= x / y)%Q.
Proof. intros Hx Hy. apply Qle_shift_div_l; [exact Hy|]. lra. Qed.

(** The three quadratic pieces on a span [[b, c)] of the knots
    [a <= b < c <= d]: each is non-negative and they sum to 1. *)
Lemma span_pieces_bounds (a b c d t : Q) :
  (a <= b)%Q -> (b <= t)%Q -> (t < c)%Q -> (c <= d)%Q ->
  (0 <= (c - t) / (c - a) * ((c - t) / (c - b)))%Q
  /\ (0 <= (t - a) / (c - a) * ((c - t) / (c - b))
           + (d - t) / (d - b) * ((t - b) / (c - b)))%Q
  /\ (0 <= (t - b) / (d - b) * ((t - b) / (c - b)))%Q
  /\ ((c - t) / (c - a) * ((c - t) / (c - b))
      + ((t - a) / (c - a) * ((c - t) / (c - b))
         + (d - t) / (d - b) * ((t - b) / (c - b)))
      + (t - b) / (d - b) * ((t - b) / (c - b)) == 1)%Q.
Proof.
  intros Hab Hbt Htc Hcd.
  assert (0 <= (c - t) / (c - a))%Q by (apply Qdiv_nonneg; lra).
  assert (0 <= (c - t) / (c - b))%Q by (apply Qdiv_nonneg; lra).
  assert (0 <= (t - a) / (c - a))%Q by (apply Qdiv_nonneg; lra).
  assert (0 <= (d - t) / (d - b))%Q by (apply Qdiv_nonneg; lra).
  assert (0 <= (t - b) / (c - b))%Q by (apply Qdiv_nonneg; lra).
  assert (0 <= (t - b) / (d - b))%Q by (apply Qdiv_nonneg; lra).
  split; [now apply Qmult_le_0_compat|]. split.
  - assert (0 <= (t - a) / (c - a) * ((c - t) / (c - b)))%Q
      by now apply Qmult_le_0_compat.
    assert (0 <= (d - t) / (d - b) * ((t - b) / (c - b)))%Q
      by now apply Qmult_le_0_compat.
    lra.
  - split; [now apply Qmult_le_0_compat|]. field. repeat split; lra.
Qed.

Lemma Qfloor_bounds0 (t : Q) (n : Z) :
  (0 <= t)%Q -> (t < inject_Z (n - 2))%Q ->
  0 <= Qfloor t <= n - 3
  /\ (inject_Z (Qfloor t) <= t)%Q /\ (t < inject_Z (Qfloor t + 1))%Q.
Proof.
  intros H0 H1.
  assert (Ha := Qfloor_le t). assert (Hb := Qlt_floor t).
  split; [|split; assumption].
  split.
  - assert (inject_Z 0 < inject_Z (Qfloor t + 1))%Q as H by (change (inject_Z 0) with 0%Q; lra).
    rewrite <- Zlt_Qlt in H. lia.
  - assert (inject_Z (Qfloor t) < inject_Z (n - 2))%Q as H by lra.
    rewrite <- Zlt_Qlt in H. lia.
Qed.

Lemma basis_bounds_in_span st n t i :
  3 <= n -> getDim (_controlPoints st) = n -> getDim (_knotVector st) = n + 3 ->
  (forall i, 0 <= i < n + 3 -> knot st i = inject_Z (clamped_knot n i)) ->
  (0 <= t)%Q -> (t < inject_Z (n - 2))%Q -> 0 <= i <= n - 1 ->
  (0 <= basis st t i)%Q /\ (basis st t i <= 1)%Q.
Proof.
  intros Hn Hcp Hkv Hknot Ht0 Ht1 Hi.
  destruct (Qfloor_bounds0 t n Ht0 Ht1) as (Hj & Hj1 & Hj2).
  set (j := Qfloor t) in *. set (s := j + 2).
  assert (HB0 : forall i, 0 <= i <= n + 1 ->
            coxDeBoor (knot st) (knot st (getDim (_knotVector st) - 1))
              (getDim (_controlPoints st) - 1) 0 i t
            = if i =? s then 1%Q else 0%Q)
    by (intros k Hk; apply (B0_in_span st n t Hn Hkv Hknot j k); assumption).
  assert (Hs := knot_span st n Hknot j Hj). fold s in Hs.
  assert (Hl := knot_order st n Hknot (s - 1) s ltac:(unfold s; lia) ltac:(lia)
                  ltac:(unfold s; lia)).
  assert (Hr := knot_order st n Hknot (s + 1) (s + 2) ltac:(unfold s; lia) ltac:(lia)
                  ltac:(unfold s; lia)).
  assert (Hb : knot st s = inject_Z j).
  { rewrite Hknot by (unfold s; lia). f_equal. unfold clamped_knot, s. lia. }
  assert (Hc : knot st (s + 1) = inject_Z (j + 1)).
  { rewrite Hknot by (unfold s; lia). f_equal. unfold clamped_knot, s. lia. }
  destruct (span_pieces_bounds (knot st (s - 1)) (knot st s) (knot st (s + 1))
              (knot st (s + 2)) t) as (PA & PB & PC & PS);
    [exact Hl | rewrite Hb; exact Hj1 | rewrite Hc; exact Hj2 | exact Hr |].
  assert (Hrange : 0 <= s - 2 /\ s + 2 <= n + 1) by (unfold s; lia).
  pose proof (V2_a (knot st) _ _ t s 0 (n + 1) Hrange Hs Hl HB0) as EA.
  pose proof (V2_b (knot st) _ _ t s 0 (n + 1) Hrange Hs Hl Hr HB0) as EB.
  pose proof (V2_c (knot st) _ _ t s 0 (n + 1) Hrange Hs Hr HB0) as EC.
  cbv beta in EA, EB, EC. unfold basis.
  destruct (Z.eq_dec i (s - 2)) as [->|N2]; [rewrite EA; lra|].
  destruct (Z.eq_dec i (s - 1)) as [->|N1]; [rewrite EB; lra|].
  destruct (Z.eq_dec i s) as [->|N0]; [rewrite EC; lra|].
  rewrite (B2_zero (knot st) _ _ t s 0 (n + 1) HB0 i) by lia. lra.
Qed.

(** X6. On the whole closed domain [[getStartP, getEndP]] of a B-spline
    built from [n >= 3] control points every basis value
    [evaluateBasis(i, 2, t)] lies between 0 and 1: the position is a convex
    combination of the control points. *)
Theorem evaluateBasis_between_0_and_1 freshS c st t i :
  3 <= getDim c -> MyB_spline_direct freshS c = Some st ->
  (0 <= t)%Q -> (t <= inject_Z (getDim c - 2))%Q -> 0 <= i < getDim c ->
  exists v, evaluateBasis st i 2 t = Some v /\ (0 <= v)%Q /\ (v <= 1)%Q.
Proof.
  intros Hn Hst Ht0 Ht1 Hi.
  destruct (direct_clamped freshS c st (_p st) Hn Hst) as (Hwf & Hc & Hkv & Hknot).
  cbn [set_p _controlPoints _knotVector] in Hc, Hkv.
  assert (Hcd : getDim (_controlPoints st) = getDim c) by now rewrite Hc.
  assert (Hknot' : forall i, 0 <= i < getDim c + 3 ->
                     knot st i = inject_Z (clamped_knot (getDim c) i))
    by (intros k Hk; apply (Hknot k Hk)).
  eexists. split; [apply (evaluateBasis_eq st i 2 t); lia|].
  fold (basis st t i).
  destruct (Qlt_le_dec t (inject_Z (getDim c - 2))) as [Hlt|Hge].
  - apply (basis_bounds_in_span st (getDim c)); auto; lia.
  - assert (t == inject_Z (getDim c - 2))%Q as Heq by lra.
    unfold basis.
    rewrite (B2_at_end st (getDim c) t Hn Hcd Hkv Hknot' i Heq) by lia.
    destruct (i =? getDim c - 1); lra.
Qed.

(** *** Degenerate sample lists *)

(** X7. With an empty list of samples the least-squares constructor is
    defined, although nothing is fitted: the object has [n] control points
    holding whatever the allocated storage holds, and the knot vector of [n]
    control points. *)
Theorem fit_of_no_samples freshS freshV n :
  0 <= n ->
  MyB_spline_fit freshS freshV [] n
  = Some (mkBSpline (freshV <$> seq 0 (Z.to_nat n)) (knot_values n) []).
Proof.
  intros Hn. unfold MyB_spline_fit, leastSquaresFit, leastSquaresFit_matrix.
  cbn [_controlPoints _knotVector _p set_controlPoints].
  assert (setDim freshV n [] = Some (freshV <$> seq 0 (Z.to_nat n))) as ->.
  { unfold setDim. destruct (Z.ltb_spec n 0); [lia|].
    change (getDim (@nil V3)) with 0. destruct (Z.ltb_spec 0 n); [reflexivity|].
    replace (Z.to_nat n) with 0%nat by lia. reflexivity. }
  cbn [mbind option_bind].
  unfold dv_make. destruct (Z.leb_spec 0 n); [|lia]. cbn [mbind option_bind].
  change (getDim (@nil V3)) with 0. change (0 <=? 0) with true. cbv iota.
  cbn [mbind option_bind]. rewrite for_empty by lia.
  cbn [mbind option_bind fmap option_fmap option_map fst].
  rewrite generateKnotVector_values.
  unfold set_knotVector, set_controlPoints. cbn [_controlPoints _knotVector _p].
  replace (getDim (freshV <$> seq 0 (Z.to_nat n))) with n; [reflexivity|].
  unfold getDim. rewrite length_fmap, length_seq. lia.
Qed.



(** *** Instances of the further properties *)


Lemma eval_outside_domain_is_zero_witness :
  exists st' p,
    eval (fun _ => vzero) scenario_bspline (-1) 0 = Some st'
    /\ dv_get (_p st') 0 = Some p /\ veq p vzero.
Proof.
  apply (eval_outside_domain_is_zero (fun _ => 0%Q) (fun _ => vzero)
           scenario_controlPoints scenario_bspline [] (-1) 0);
    [unfold getDim; simpl; lia | reflexivity | lia | left; reflexivity].
Defined.

Lemma evaluateBasis_between_0_and_1_witness :
  exists v, evaluateBasis scenario_bspline 2 2 (3 # 2) = Some v
            /\ (0 <= v)%Q /\ (v <= 1)%Q.
Proof.
  apply (evaluateBasis_between_0_and_1 (fun _ => 0%Q) scenario_controlPoints
           scenario_bspline (3 # 2) 2);
    [unfold getDim; simpl; lia | reflexivity | discriminate | discriminate
    | unfold getDim; simpl; lia].
Defined.


Lemma fit_of_no_samples_witness :
  MyB_spline_fit (fun _ => 0%Q) (fun _ => vzero) [] 4
  = Some (mkBSpline ((fun _ => vzero) <$> seq 0 (Z.to_nat 4)) (knot_values 4) []).
Proof. apply (fit_of_no_samples (fun _ => 0%Q) (fun _ => vzero) 4). lia. Defined.


End BSpline.

(** * The closed subdivision curve, [work/closedsubdivisioncurve.h] *)

Module Subdivision.

(** [a % b] on [int]: truncated remainder, undefined for [b = 0]. *)
Definition crem (a b : Z) : option Z :=
  if b =? 0 then None else Some (Z.rem a b).

(** The object; [_p] is the evaluation buffer inherited from
    [GMlib::PCurve]. *)
Record ClosedSubdivisionCurve : Type := mkCurve {
  _controlPoints : list V3;
  _subdividedPoints : list V3;
  _degree : Z;
  _p : list V3
}.

Definition set_subdividedPoints (st : ClosedSubdivisionCurve) (s : list V3)
  : ClosedSubdivisionCurve :=
  mkCurve (_controlPoints st) s (_degree st) (_p st).

Definition set_p (st : ClosedSubdivisionCurve) (p : list V3)
  : ClosedSubdivisionCurve :=
  mkCurve (_controlPoints st) (_subdividedPoints st) (_degree st) p.

(** Step 1 of an iteration: insert the midpoints. *)
Definition insert_midpoints (points : list V3) : option (list V3) :=
  let numPoints := getDim points in
  newPoints ← dv_make (2 * numPoints) vzero;
  for_ 0 numPoints (fun i newPoints =>
      pi ← dv_get points i;
      newPoints ← dv_set newPoints (2 * i) pi;
      nxt ← crem (i + 1) numPoints;
      pi ← dv_get points i;
      pn ← dv_get points nxt;
      dv_set newPoints (2 * i + 1) (vscale_r (vadd pi pn) (1 # 2))) newPoints.

(** One smoothing pass of step 2. *)
Definition smoothing_pass (newPoints : list V3) : option (list V3) :=
  smoothedPoints ← dv_make (getDim newPoints) vzero;
  for_ 0 (getDim newPoints) (fun i smoothedPoints =>
      prev ← crem (i - 1 + getDim newPoints) (getDim newPoints);
      a ← dv_get newPoints i;
      b ← dv_get newPoints prev;
      dv_set smoothedPoints i (vscale_r (vadd a b) (1 # 2))) smoothedPoints.

(** The body of the loop over [iter]. *)
Definition subdivision_iteration (degree : Z) (points : list V3)
  : option (list V3) :=
  newPoints ← insert_midpoints points;
  for_ 1 degree (fun avg newPoints => smoothing_pass newPoints) newPoints.

Definition laneRiesenfeldSubdivision (st : ClosedSubdivisionCurve)
  : option ClosedSubdivisionCurve :=
  let points := _controlPoints st in
  points ← for_ 0 (_degree st)
              (fun iter points => subdivision_iteration (_degree st) points) points;
  let sub := points in
  sub ← (if 1 <? getDim sub
         then first ← dv_get sub 0; dv_set sub (getDim sub - 1) first
         else Some sub);
  Some (set_subdividedPoints st sub).

(** The constructor; a new object has empty vectors. *)
Definition ClosedSubdivisionCurve_new (controlPts : list V3) (degree : Z)
  : option ClosedSubdivisionCurve :=
  laneRiesenfeldSubdivision (mkCurve controlPts [] degree []).

Section Code.
Variable freshV : nat -> V3.

(** [eval(t, d)] writes the buffer [_p]. *)
Definition eval (st : ClosedSubdivisionCurve) (t : Q) (d : Z)
  : option ClosedSubdivisionCurve :=
  let sub := _subdividedPoints st in
  p ← setDim freshV (d + 1) (_p st);
  let scaled_t := (t * inject_Z (getDim sub - 1))%Q in
  index ← crem (Qfloor scaled_t) (getDim sub);
  let alpha := (scaled_t - inject_Z index)%Q in
  p1 ← dv_get sub index;
  i2 ← crem (index + 1) (getDim sub);
  p2 ← dv_get sub i2;
  p ← dv_set p 0 (vadd (vscale (1 - alpha) p1) (vscale alpha p2));
  p ← (if 0 <? d
       then next ← crem (index + 1) (getDim sub);
            prev ← crem (index - 1 + getDim sub) (getDim sub);
            a ← dv_get sub next;
            b ← dv_get sub prev;
            dv_set p 1 (vscale_r (vsub a b) (1 # 2))
       else Some p);
  Some (set_p st p).

(** A sequence of [eval(t, d)] calls on one object. *)
Fixpoint run_evals (calls : list (Q * Z)) (st : ClosedSubdivisionCurve)
  : option ClosedSubdivisionCurve :=
  match calls with
  | [] => Some st
  | (t, d) :: rest => st' ← eval st t d; run_evals rest st'
  end.

End Code.

(** ** The algorithm in the words of the specification *)

(** Point [i] of a polygon. *)
Definition pt (pts : list V3) (i : Z) : V3 := default vzero (dv_get pts i).

Definition midpoint (a b : V3) : V3 := vscale_r (vadd a b) (1 # 2).

(** Midpoint insertion: the [2N]-point polygon that alternates the points
    of [pts] with the midpoints of its edges, the closing edge included. *)
Definition midpoint_insertion (pts : list V3) : list V3 :=
  let N := getDim pts in
  (fun j => if Z.even j then pt pts (j / 2)
            else midpoint (pt pts (j / 2)) (pt pts ((j / 2 + 1) mod N)))
    <$> seqZ 0 (2 * N).

(** An averaging pass: every point becomes the average of itself and its
    predecessor, the first point having the last as predecessor. *)
Definition averaging_pass (pts : list V3) : list V3 :=
  let N := getDim pts in
  (fun i => midpoint (pt pts i) (pt pts ((i - 1) mod N))) <$> seqZ 0 N.

(** One refinement round of degree [r]: midpoint insertion, then [r - 1]
    averaging passes. *)
Definition refinement_round (r : nat) (pts : list V3) : list V3 :=
  Nat.iter (r - 1) averaging_pass (midpoint_insertion pts).

(** Closure: the last point is made equal to the first. *)
Definition close_polygon (pts : list V3) : list V3 :=
  if 1 <? getDim pts then <[Z.to_nat (getDim pts - 1) := pt pts 0]> pts else pts.

(** [r] refinement rounds, then closure. *)
Definition lane_riesenfeld (r : nat) (pts : list V3) : list V3 :=
  close_polygon (Nat.iter r (refinement_round r) pts).

(** The closure invariant: the first and the last subdivided point are one
    and the same point. *)
Definition closed (st : ClosedSubdivisionCurve) : Prop :=
  exists x,
    dv_get (_subdividedPoints st) 0 = Some x
    /\ dv_get (_subdividedPoints st) (getDim (_subdividedPoints st) - 1) = Some x.

(** The rectangle of [Scenario::initializeScenario]. *)
Definition rectPoints : list V3 :=
  [mkV3 (-1) (-1) 0; mkV3 1 (-1) 0; mkV3 1 1 0; mkV3 (-1) 1 0].

(** The curve that the scenario builds from the rectangle, at degree 2. *)
Definition rect_curve : ClosedSubdivisionCurve :=
  Eval vm_compute in
    default (mkCurve [] [] 0 []) (ClosedSubdivisionCurve_new rectPoints 2).


(** [getStartP], [getEndP] and [isClosed]. *)
Definition getStartP (st : ClosedSubdivisionCurve) : Q := 0.
Definition getEndP (st : ClosedSubdivisionCurve) : Q := 1.
Definition isClosed (st : ClosedSubdivisionCurve) : bool := true.


(** A point inside an axis-aligned box. *)
Definition in_box (lo hi : V3) (v : V3) : Prop :=
  (vx lo <= vx v <= vx hi)%Q /\ (vy lo <= vy v <= vy hi)%Q
  /\ (vz lo <= vz v <= vz hi)%Q.

(** ** The subdivision refines the specification *)

Lemma dv_get_pt pts i : 0 <= i < getDim pts -> dv_get pts i = Some (pt pts i).
Proof.
  intros H. unfold pt. destruct (dv_get_inbounds pts i H) as [x ->]. reflexivity.
Qed.

Lemma crem_mod a b : 0 <= a -> 0 < b -> crem a b = Some (a mod b).
Proof.
  intros Ha Hb. unfold crem. destruct (Z.eqb_spec b 0); [lia|].
  now rewrite Z.rem_mod_nonneg by lia.
Qed.

Lemma pred_wrap i N : 0 < N -> (i - 1 + N) mod N = (i - 1) mod N.
Proof.
  intros H. replace (i - 1 + N) with (i - 1 + 1 * N) by lia.
  apply Z_mod_plus_full.
Qed.

Lemma for_ext {S : Type} (body body' : Z -> S -> option S) lo hi s :
  (forall i s, lo <= i < hi -> body i s = body' i s) ->
  for_ lo hi body s = for_ lo hi body' s.
Proof. intros H. unfold for_. apply for_n_ext. intros i s0 Hi. apply H. lia. Qed.

Lemma insert_midpoints_spec pts :
  insert_midpoints pts = Some (midpoint_insertion pts).
Proof.
  unfold insert_midpoints, midpoint_insertion.
  destruct (dv_make (2 * getDim pts) vzero) as [v|] eqn:Ev.
  2:{ unfold dv_make, getDim in Ev. destruct (Z.leb_spec 0 (2 * Z.of_nat (length pts)));
        [discriminate|lia]. }
  cbn [mbind option_bind]. apply getDim_make in Ev.
  rewrite (for_ext _ (fun i u =>
             u ← dv_set u (2 * i) (pt pts i);
             dv_set u (2 * i + 1)
               (midpoint (pt pts i) (pt pts ((i + 1) mod getDim pts))))).
  - apply (for_tabulate2 (pt pts)
             (fun i => midpoint (pt pts i) (pt pts ((i + 1) mod getDim pts))));
      [unfold getDim; lia | exact Ev].
  - intros i u Hi. rewrite !dv_get_pt by lia. cbn [mbind option_bind].
    destruct (dv_set u (2 * i) (pt pts i)) as [u'|]; [|reflexivity].
    cbn [mbind option_bind]. rewrite crem_mod by lia. cbn [mbind option_bind].
    rewrite dv_get_pt by (apply Z.mod_pos_bound; lia). reflexivity.
Qed.

Lemma smoothing_pass_spec pts : smoothing_pass pts = Some (averaging_pass pts).
Proof.
  unfold smoothing_pass, averaging_pass.
  destruct (dv_make (getDim pts) vzero) as [v|] eqn:Ev.
  2:{ unfold dv_make, getDim in Ev. destruct (Z.leb_spec 0 (Z.of_nat (length pts)));
        [discriminate|lia]. }
  cbn [mbind option_bind]. apply getDim_make in Ev.
  rewrite (for_ext _ (fun i u =>
             dv_set u i (midpoint (pt pts i) (pt pts ((i - 1) mod getDim pts))))).
  - now apply for_tabulate.
  - intros i u Hi. rewrite crem_mod by lia. cbn [mbind option_bind].
    rewrite pred_wrap by lia.
    rewrite !dv_get_pt by (try apply Z.mod_pos_bound; lia). reflexivity.
Qed.

Lemma getDim_midpoint_insertion pts :
  getDim (midpoint_insertion pts) = 2 * getDim pts.
Proof. unfold midpoint_insertion. apply getDim_tabulate. unfold getDim. lia. Qed.

Lemma getDim_averaging_pass pts : getDim (averaging_pass pts) = getDim pts.
Proof. unfold averaging_pass. apply getDim_tabulate. unfold getDim. lia. Qed.

Lemma getDim_refinement_round r pts :
  getDim (refinement_round r pts) = 2 * getDim pts.
Proof.
  unfold refinement_round. induction (r - 1)%nat as [|k IH].
  - apply getDim_midpoint_insertion.
  - now rewrite Nat.iter_succ, getDim_averaging_pass.
Qed.

Lemma getDim_rounds r k pts :
  getDim (Nat.iter k (refinement_round r) pts) = 2 ^ Z.of_nat k * getDim pts.
Proof.
  induction k as [|k IH].
  - change (2 ^ Z.of_nat 0) with 1. cbn [Nat.iter nat_rect]. lia.
  - rewrite Nat.iter_succ, getDim_refinement_round, IH, Nat2Z.inj_succ, Z.pow_succ_r
      by lia. lia.
Qed.

Lemma subdivision_iteration_spec degree pts :
  subdivision_iteration degree pts = Some (refinement_round (Z.to_nat degree) pts).
Proof.
  unfold subdivision_iteration, refinement_round. rewrite insert_midpoints_spec.
  cbn [mbind option_bind]. unfold for_.
  replace (Z.to_nat degree - 1)%nat with (Z.to_nat (degree - 1)) by lia.
  apply for_n_iter. intros i s0 _. apply smoothing_pass_spec.
Qed.

Lemma laneRiesenfeldSubdivision_spec st :
  laneRiesenfeldSubdivision st
  = Some (set_subdividedPoints st
            (lane_riesenfeld (Z.to_nat (_degree st)) (_controlPoints st))).
Proof.
  unfold laneRiesenfeldSubdivision, lane_riesenfeld, for_.
  rewrite (for_n_iter (refinement_round (Z.to_nat (_degree st))))
    by (intros i s0 _; apply subdivision_iteration_spec).
  cbn [mbind option_bind]. rewrite Z.sub_0_r. unfold close_polygon.
  set (pts := Nat.iter _ _ _).
  destruct (Z.ltb_spec 1 (getDim pts)); [|reflexivity].
  rewrite dv_get_pt by lia. cbn [mbind option_bind].
  rewrite dv_set_inbounds by lia. reflexivity.
Qed.

Lemma close_polygon_closed pts :
  2 <= getDim pts ->
  getDim (close_polygon pts) = getDim pts
  /\ dv_get (close_polygon pts) 0 = Some (pt pts 0)
  /\ dv_get (close_polygon pts) (getDim pts - 1) = Some (pt pts 0).
Proof.
  intros H. unfold close_polygon. destruct (Z.ltb_spec 1 (getDim pts)); [|lia].
  split; [apply getDim_insert|]. rewrite !dv_get_insert by lia.
  destruct (Z.eqb_spec (getDim pts - 1) 0); [lia|]. rewrite Z.eqb_refl.
  split; [now apply dv_get_pt; lia|reflexivity].
Qed.

Lemma eval_subdividedPoints freshV st t d st' :
  eval freshV st t d = Some st' -> _subdividedPoints st' = _subdividedPoints st.
Proof.
  unfold eval. intros H.
  repeat match type of H with
         | (mbind _ ?x) = Some _ => destruct x; cbn [mbind option_bind] in H;
                                    [|discriminate]
         end.
  now injection H as <-.
Qed.

Lemma run_evals_subdividedPoints freshV calls : forall st st',
  run_evals freshV calls st = Some st' -> _subdividedPoints st' = _subdividedPoints st.
Proof.
  induction calls as [|[t d] rest IH]; intros st st' H; cbn [run_evals] in H.
  - now injection H as <-.
  - destruct (eval freshV st t d) as [st1|] eqn:E; [|discriminate].
    cbn [mbind option_bind] in H. rewrite (IH _ _ H).
    exact (eval_subdividedPoints _ _ _ _ _ E).
Qed.

(** C6. For a closed control polygon of [n >= 1] points and a subdivision
    degree [r >= 1], [laneRiesenfeldSubdivision] performs exactly [r] outer
    iterations, each one a midpoint insertion (an [N]-point polygon becomes
    the [2N]-point polygon alternating its points with the wrap-around edge
    midpoints) followed by [r - 1] passes that replace every point by the
    average of itself and its wrap-around predecessor, and then makes the last
    point of the cached result equal to the first. *)
Theorem laneRiesenfeldSubdivision_refines st cps r :
  _controlPoints st = cps -> _degree st = r -> 1 <= getDim cps -> 1 <= r ->
  laneRiesenfeldSubdivision st
  = Some (set_subdividedPoints st
            (close_polygon
               (Nat.iter (Z.to_nat r)
                  (fun pts => Nat.iter (Z.to_nat r - 1) averaging_pass
                                (midpoint_insertion pts))
                  cps)))
  /\ getDim (Nat.iter (Z.to_nat r)
               (fun pts => Nat.iter (Z.to_nat r - 1) averaging_pass
                             (midpoint_insertion pts))
               cps)
     = 2 ^ r * getDim cps.
Proof.
  intros <- <- Hn Hr. split.
  - apply laneRiesenfeldSubdivision_spec.
  - change (getDim (Nat.iter (Z.to_nat (_degree st))
                      (refinement_round (Z.to_nat (_degree st))) (_controlPoints st))
            = 2 ^ _degree st * getDim (_controlPoints st)).
    rewrite getDim_rounds, Z2Nat.id by lia. reflexivity.
Qed.

Lemma constructed_closed cps r :
  1 <= getDim cps -> 1 <= r ->
  exists st, ClosedSubdivisionCurve_new cps r = Some st /\ closed st.
Proof.
  intros Hn Hr. unfold ClosedSubdivisionCurve_new.
  rewrite laneRiesenfeldSubdivision_spec. eexists. split; [reflexivity|].
  unfold closed, lane_riesenfeld. cbn [_subdividedPoints set_subdividedPoints _degree _controlPoints].
  set (pts := Nat.iter _ _ _).
  assert (2 <= getDim pts) as Hdim.
  { unfold pts. rewrite getDim_rounds, Z2Nat.id by lia.
    assert (2 <= 2 ^ r) by (change 2 with (2 ^ 1) at 1; apply Z.pow_le_mono_r; lia).
    nia. }
  destruct (close_polygon_closed pts Hdim) as (Hd & H0 & H1).
  exists (pt pts 0). rewrite Hd. split; assumption.
Qed.

(** C7. For a closed control polygon of [n >= 1] points and a subdivision
    degree [r >= 1], the object that the constructor builds has identical
    first and last subdivided points, and every sequence of [eval] calls
    leaves the subdivided points, hence this closure, unchanged. *)
Theorem closure_invariant freshV cps r :
  1 <= getDim cps -> 1 <= r ->
  exists st,
    ClosedSubdivisionCurve_new cps r = Some st
    /\ closed st
    /\ forall calls st',
         run_evals freshV calls st = Some st' ->
         _subdividedPoints st' = _subdividedPoints st /\ closed st'.
Proof.
  intros Hn Hr. destruct (constructed_closed cps r Hn Hr) as (st & Hst & Hcl).
  exists st. split; [exact Hst|]. split; [exact Hcl|].
  intros calls st' Hrun.
  assert (E := run_evals_subdividedPoints freshV calls st st' Hrun).
  split; [exact E|]. unfold closed. rewrite E. exact Hcl.
Qed.



(** ** Examples and instances *)

Example rect_curve_new : ClosedSubdivisionCurve_new rectPoints 2 = Some rect_curve.
Proof. reflexivity. Qed.

(** Midpoint insertion on the rectangle: corners and edge midpoints
    alternate, the last midpoint being that of the closing edge. *)
Example rect_midpoint_insertion :
  vred <$> midpoint_insertion rectPoints
  = [mkV3 (-1) (-1) 0; mkV3 0 (-1) 0; mkV3 1 (-1) 0; mkV3 1 0 0;
     mkV3 1 1 0; mkV3 0 1 0; mkV3 (-1) 1 0; mkV3 (-1) 0 0].
Proof. reflexivity. Qed.

(** At degree 1 there is no averaging pass, and closure overwrites the
    midpoint of the closing edge. *)
Example rect_degree_1 :
  (fun st => vred <$> _subdividedPoints st) <$> ClosedSubdivisionCurve_new rectPoints 1
  = Some [mkV3 (-1) (-1) 0; mkV3 0 (-1) 0; mkV3 1 (-1) 0; mkV3 1 0 0;
          mkV3 1 1 0; mkV3 0 1 0; mkV3 (-1) 1 0; mkV3 (-1) (-1) 0].
Proof. reflexivity. Qed.

(** The interpolation-endpoint example of the specification: the curve of
    the square returns the same point at [t = 0] and at [t = 1]. *)
Example rect_curve_endpoints :
  exists s0 s1 x,
    eval (fun _ => vzero) rect_curve 0 0 = Some s0
    /\ eval (fun _ => vzero) rect_curve 1 0 = Some s1
    /\ dv_get (_p s0) 0 = Some x /\ dv_get (_p s1) 0 = Some x.
Proof. do 3 eexists. repeat split; vm_compute; reflexivity. Qed.

Lemma laneRiesenfeldSubdivision_refines_witness :
  laneRiesenfeldSubdivision (mkCurve rectPoints [] 2 [])
  = Some (set_subdividedPoints (mkCurve rectPoints [] 2 [])
            (close_polygon
               (Nat.iter (Z.to_nat 2)
                  (fun pts => Nat.iter (Z.to_nat 2 - 1) averaging_pass
                                (midpoint_insertion pts))
                  rectPoints)))
  /\ getDim (Nat.iter (Z.to_nat 2)
               (fun pts => Nat.iter (Z.to_nat 2 - 1) averaging_pass
                             (midpoint_insertion pts))
               rectPoints)
     = 2 ^ 2 * getDim rectPoints.
Proof.
  apply (laneRiesenfeldSubdivision_refines (mkCurve rectPoints [] 2 []) rectPoints 2);
    [reflexivity | reflexivity | unfold getDim; simpl; lia | lia].
Defined.

Lemma closure_invariant_witness :
  exists st,
    ClosedSubdivisionCurve_new rectPoints 2 = Some st
    /\ closed st
    /\ forall calls st',
         run_evals (fun _ => vzero) calls st = Some st' ->
         _subdividedPoints st' = _subdividedPoints st /\ closed st'.
Proof.
  apply (closure_invariant (fun _ => vzero) rectPoints 2);
    [unfold getDim; simpl; lia | lia].
Defined.


(** ** Further properties *)





Lemma constructed_points cps r :
  ClosedSubdivisionCurve_new cps r
  = Some (mkCurve cps (lane_riesenfeld (Z.to_nat r) cps) r []).
Proof. unfold ClosedSubdivisionCurve_new. now rewrite laneRiesenfeldSubdivision_spec. Qed.

Lemma getDim_close_polygon pts : getDim (close_polygon pts) = getDim pts.
Proof.
  unfold close_polygon. destruct (1 <? getDim pts); [apply getDim_insert|reflexivity].
Qed.


(** X12. The constructor keeps [2^r n] points for [n] control points and a
    degree [r >= 0]; a degree [r <= 0] refines nothing, but the closure step
    still runs: the points are the control points with the last one
    overwritten by the first. *)
Theorem constructed_point_count cps r :
  exists st,
    ClosedSubdivisionCurve_new cps r = Some st
    /\ getDim (_subdividedPoints st) = 2 ^ Z.max 0 r * getDim cps
    /\ (r <= 0 -> _subdividedPoints st = close_polygon cps).
Proof.
  rewrite constructed_points. eexists. split; [reflexivity|].
  cbn [_subdividedPoints]. unfold lane_riesenfeld. split.
  - rewrite getDim_close_polygon, getDim_rounds. f_equal. f_equal. lia.
  - intros Hr. replace (Z.to_nat r) with 0%nat by lia. reflexivity.
Qed.

Lemma nil_of_getDim {A} (l : list A) : getDim l = 0 -> l = [].
Proof. unfold getDim. destruct l; [reflexivity|]. cbn [length]. lia. Qed.

(** X13. An empty control polygon gives an empty point set at every degree,
    and [eval] has no defined outcome on it: the index is a remainder modulo
    the point count 0. *)
Theorem empty_polygon freshV r t d :
  ClosedSubdivisionCurve_new [] r = Some (mkCurve [] [] r [])
  /\ eval freshV (mkCurve [] [] r []) t d = None.
Proof.
  split.
  - rewrite constructed_points. do 2 f_equal. apply nil_of_getDim.
    unfold lane_riesenfeld. rewrite getDim_close_polygon, getDim_rounds.
    change (getDim (@nil V3)) with 0. lia.
  - unfold eval. cbn [_subdividedPoints _p].
    destruct (setDim freshV (d + 1) []); reflexivity.
Qed.

(** X14. A negative parameter is not wrapped: when the integer part of the
    scaled parameter is negative and not a multiple of the point count, the
    remainder is negative and [eval] reads outside the subdivided points. *)
Theorem eval_negative_parameter freshV st t d :
  Qfloor (t * inject_Z (getDim (_subdividedPoints st) - 1)) < 0 ->
  Z.rem (Qfloor (t * inject_Z (getDim (_subdividedPoints st) - 1)))
        (getDim (_subdividedPoints st)) <> 0 ->
  eval freshV st t d = None.
Proof.
  intros Hneg Hrem. unfold eval.
  destruct (setDim freshV (d + 1) (_p st)) as [p0|]; [|reflexivity].
  cbn [mbind option_bind].
  destruct (crem (Qfloor (t * inject_Z (getDim (_subdividedPoints st) - 1)))
              (getDim (_subdividedPoints st))) as [index|] eqn:Ec; [|reflexivity].
  cbn [mbind option_bind]. unfold crem in Ec.
  destruct (Z.eqb_spec (getDim (_subdividedPoints st)) 0) as [E|E]; [discriminate|].
  injection Ec as <-.
  rewrite dv_get_outside; [reflexivity|].
  pose proof (Z.rem_nonpos _ _ E (Z.lt_le_incl _ _ Hneg)) as Hle.
  set (x := Z.rem _ _) in *. clearbody x. lia.
Qed.


(** *** Invariants of the refinement *)

Section Convex.
(** A property of points that the midpoint of two points inherits. *)
Variable P : V3 -> Prop.
Hypothesis P_midpoint : forall a b, P a -> P b -> P (midpoint a b).

Lemma pt_Forall pts i : Forall P pts -> 0 <= i < getDim pts -> P (pt pts i).
Proof.
  intros HP Hi. pose proof (dv_get_pt pts i Hi) as E.
  apply dv_get_Some in E as [_ E]. exact (proj1 (Forall_lookup P pts) HP _ _ E).
Qed.

Lemma midpoint_insertion_Forall pts :
  Forall P pts -> Forall P (midpoint_insertion pts).
Proof.
  intros HP. unfold midpoint_insertion. apply Forall_fmap, Forall_forall.
  intros j Hj. apply elem_of_seqZ in Hj. cbn.
  assert (0 <= j / 2 < getDim pts).
  { split; [apply Z.div_pos; lia|apply Z.div_lt_upper_bound; lia]. }
  assert (0 <= (j / 2 + 1) mod getDim pts < getDim pts)
    by (apply Z.mod_pos_bound; lia).
  destruct (Z.even j); [|apply P_midpoint]; now apply pt_Forall.
Qed.

Lemma averaging_pass_Forall pts : Forall P pts -> Forall P (averaging_pass pts).
Proof.
  intros HP. unfold averaging_pass. apply Forall_fmap, Forall_forall.
  intros i Hi. apply elem_of_seqZ in Hi. cbn.
  assert (0 <= (i - 1) mod getDim pts < getDim pts)
    by (apply Z.mod_pos_bound; lia).
  apply P_midpoint; apply pt_Forall; auto; lia.
Qed.

Lemma refinement_round_Forall r pts :
  Forall P pts -> Forall P (refinement_round r pts).
Proof.
  intros HP. unfold refinement_round. induction (r - 1)%nat as [|k IH].
  - now apply midpoint_insertion_Forall.
  - rewrite Nat.iter_succ. now apply averaging_pass_Forall.
Qed.

Lemma close_polygon_Forall pts : Forall P pts -> Forall P (close_polygon pts).
Proof.
  intros HP. unfold close_polygon. destruct (Z.ltb_spec 1 (getDim pts)); [|exact HP].
  apply Forall_insert; [exact HP|]. apply pt_Forall; [exact HP|lia].
Qed.

Lemma lane_riesenfeld_Forall r pts : Forall P pts -> Forall P (lane_riesenfeld r pts).
Proof.
  intros HP. unfold lane_riesenfeld. apply close_polygon_Forall.
  induction r as [|k IH] in |- * at 1; [exact HP|].
  rewrite Nat.iter_succ. now apply refinement_round_Forall.
Qed.
End Convex.

(** X16. Whatever holds of the control points and is inherited by the
    midpoint of two points holds of every subdivided point: the refinement
    only ever takes midpoints, and closure copies a point. *)
Theorem subdivided_points_inherit (P : V3 -> Prop) cps r st :
  (forall a b, P a -> P b -> P (midpoint a b)) ->
  Forall P cps -> ClosedSubdivisionCurve_new cps r = Some st ->
  Forall P (_subdividedPoints st).
Proof.
  intros Hmid HP Hst. rewrite constructed_points in Hst. injection Hst as <-.
  cbn [_subdividedPoints]. now apply lane_riesenfeld_Forall.
Qed.

Lemma in_box_midpoint lo hi a b :
  in_box lo hi a -> in_box lo hi b -> in_box lo hi (midpoint a b).
Proof.
  unfold in_box, midpoint, vscale_r, vadd. cbn [vx vy vz].
  intros (Hx & Hy & Hz) (Hx' & Hy' & Hz'). repeat split; lra.
Qed.

(** X17. The subdivided points stay inside every axis-aligned box that
    contains the control points. *)
Theorem subdivided_points_in_box lo hi cps r st :
  Forall (in_box lo hi) cps -> ClosedSubdivisionCurve_new cps r = Some st ->
  Forall (in_box lo hi) (_subdividedPoints st).
Proof.
  intros HP Hst. rewrite constructed_points in Hst. injection Hst as <-.
  cbn [_subdividedPoints].
  apply lane_riesenfeld_Forall; [apply in_box_midpoint | exact HP].
Qed.

(** ** Instances of the further properties *)



Lemma eval_negative_parameter_witness :
  eval (fun _ => vzero) rect_curve (-1 # 30) 0 = None.
Proof.
  apply (eval_negative_parameter (fun _ => vzero) rect_curve (-1 # 30) 0);
    [reflexivity | discriminate].
Defined.


Lemma subdivided_points_inherit_witness :
  Forall (fun v => (vz v == 0)%Q) (_subdividedPoints rect_curve).
Proof.
  apply (subdivided_points_inherit (fun v => (vz v == 0)%Q) rectPoints 2 rect_curve).
  - intros a b Ha Hb. unfold midpoint, vscale_r, vadd. cbn [vz]. rewrite Ha, Hb. ring.
  - repeat constructor.
  - reflexivity.
Defined.

Lemma subdivided_points_in_box_witness :
  Forall (in_box (mkV3 (-1) (-1) 0) (mkV3 1 1 0)) (_subdividedPoints rect_curve).
Proof.
  apply (subdivided_points_in_box (mkV3 (-1) (-1) 0) (mkV3 1 1 0) rectPoints 2 rect_curve).
  - repeat constructor; discriminate.
  - reflexivity.
Defined.

End Subdivision.

(** * The torus knot, [work/torusknot.h] *)

Module TorusKnot.
Import Reals.
Local Open Scope R_scope.

Record V3R : Type := mkV3R { rx : R; ry : R; rz : R }.

(** The shape parameters, locals of [eval]. *)
Definition R_major : R := 2.
Definition p_twists : Z := 2.
Definition q_loops : Z := 3.

(** Step 1 of [eval]: the position. *)
Definition position (t : R) : V3R :=
  let R := R_major in let p := p_twists in let q := q_loops in
  let x := (R + cos (IZR q * t)) * cos (IZR p * t) in
  let y := (R + cos (IZR q * t)) * sin (IZR p * t) in
  let z := sin (IZR q * t) in
  mkV3R x y z.

(** Step 2 of [eval]: the first derivative. *)
Definition velocity (t : R) : V3R :=
  let R := R_major in let p := p_twists in let q := q_loops in
  let dx := IZR (- p) * (R + cos (IZR q * t)) * sin (IZR p * t)
            - IZR q * sin (IZR q * t) * cos (IZR p * t) in
  let dy := IZR p * (R + cos (IZR q * t)) * cos (IZR p * t)
            - IZR q * sin (IZR q * t) * sin (IZR p * t) in
  let dz := IZR q * cos (IZR q * t) in
  mkV3R dx dy dz.

(** Step 3 of [eval]: the second derivative, from [partA .. partD]. *)
Definition partA (t : R) : R :=
  let R := R_major in let p := p_twists in let q := q_loops in
  IZR (- p) * (IZR p * (R + cos (IZR q * t)) * cos (IZR p * t)
               - IZR q * sin (IZR q * t) * sin (IZR p * t)).

Definition partB (t : R) : R :=
  let p := p_twists in let q := q_loops in
  IZR (- q) * (IZR q * cos (IZR q * t) * cos (IZR p * t)
               - IZR p * sin (IZR q * t) * sin (IZR p * t)).

Definition partC (t : R) : R :=
  let R := R_major in let p := p_twists in let q := q_loops in
  IZR p * (IZR (- p) * (R + cos (IZR q * t)) * sin (IZR p * t)
           - IZR q * sin (IZR q * t) * cos (IZR p * t)).

Definition partD (t : R) : R :=
  let p := p_twists in let q := q_loops in
  IZR (- q) * (IZR q * cos (IZR q * t) * sin (IZR p * t)
               + IZR p * sin (IZR q * t) * cos (IZR p * t)).

Definition acceleration (t : R) : V3R :=
  let q := q_loops in
  let xpp := partA t + partB t in
  let ypp := partC t + partD t in
  let zpp := IZR (- q * q) * sin (IZR q * t) in
  mkV3R xpp ypp zpp.

Section Code.
Variable freshV : nat -> V3R.

(** [eval(t, d)] on the buffer [_p]; the class has no other member. *)
Definition eval (buf : list V3R) (t : R) (d : Z) : option (list V3R) :=
  _p ← setDim freshV (d + 1) buf;
  _p ← dv_set _p 0 (position t);
  _p ← (if (0 <? d)%Z then dv_set _p 1 (velocity t) else Some _p);
  _p ← (if (1 <? d)%Z then dv_set _p 2 (acceleration t) else Some _p);
  Some _p.
End Code.

(** The conditional write of a derivative slot. *)
Definition write_if (c : bool) (i : nat) (x : V3R) (l : list V3R) : list V3R :=
  if c then <[i := x]> l else l.

(** ** The curve in the words of the specification *)

(** Position of the (2,3) torus knot of major radius 2. *)
Definition knot_x (t : R) : R := (2 + cos (3 * t)) * cos (2 * t).
Definition knot_y (t : R) : R := (2 + cos (3 * t)) * sin (2 * t).
Definition knot_z (t : R) : R := sin (3 * t).

(** [f'] is the derivative of [f]. *)
Definition is_derivative (f f' : R -> R) : Prop :=
  forall s, derivable_pt_lim f s (f' s).

(** [l] is the second derivative of [f] at [t]. *)
Definition is_second_derivative_at (f : R -> R) (t l : R) : Prop :=
  exists f', is_derivative f f' /\ derivable_pt_lim f' t l.

(** The two terms of the first derivative of [x] and of [y] that the product
    rule gives: the envelope [R + cos(qt)] times the derivative of the carrier
    [cos(pt)] or [sin(pt)], and the derivative of the envelope times the
    carrier. *)
Definition dx_carrier_term (s : R) : R :=
  IZR (- p_twists) * (R_major + cos (IZR q_loops * s)) * sin (IZR p_twists * s).

Definition dx_envelope_term (s : R) : R :=
  - (IZR q_loops * sin (IZR q_loops * s) * cos (IZR p_twists * s)).

Definition dy_carrier_term (s : R) : R :=
  IZR p_twists * (R_major + cos (IZR q_loops * s)) * cos (IZR p_twists * s).

Definition dy_envelope_term (s : R) : R :=
  - (IZR q_loops * sin (IZR q_loops * s) * sin (IZR p_twists * s)).

(** [l] is assembled from two contributions: the derivative [f'] is the sum
    of the terms [T1] and [T2], [a] and [b] are their derivatives at [t], and
    [l] is [a + b]. *)
Definition sum_of_contributions (f' T1 T2 : R -> R) (t a b l : R) : Prop :=
  (forall s, f' s = T1 s + T2 s)
  /\ derivable_pt_lim T1 t a /\ derivable_pt_lim T2 t b /\ l = a + b.

(** [getStartP], [getEndP] and [isClosed]; [M_PI] is the number pi. *)
Definition getStartP : R := 0.
Definition getEndP : R := 6 * PI.
Definition isClosed : bool := true.

(** The squared length of a vector. *)
Definition norm2 (v : V3R) : R := rx v * rx v + ry v * ry v + rz v * rz v.

(** ** Derivatives *)

Lemma D_eq f t l l' : derivable_pt_lim f t l -> l = l' -> derivable_pt_lim f t l'.
Proof. intros H <-. exact H. Qed.

Lemma D_const c t : derivable_pt_lim (fun _ => c) t 0.
Proof. apply derivable_pt_lim_const. Qed.

Lemma D_plus f g t a b :
  derivable_pt_lim f t a -> derivable_pt_lim g t b ->
  derivable_pt_lim (fun s => f s + g s) t (a + b).
Proof. apply derivable_pt_lim_plus. Qed.

Lemma D_minus f g t a b :
  derivable_pt_lim f t a -> derivable_pt_lim g t b ->
  derivable_pt_lim (fun s => f s - g s) t (a - b).
Proof. apply derivable_pt_lim_minus. Qed.

Lemma D_opp f t a :
  derivable_pt_lim f t a -> derivable_pt_lim (fun s => - f s) t (- a).
Proof. apply derivable_pt_lim_opp. Qed.

Lemma D_mult f g t a b :
  derivable_pt_lim f t a -> derivable_pt_lim g t b ->
  derivable_pt_lim (fun s => f s * g s) t (a * g t + f t * b).
Proof. apply derivable_pt_lim_mult. Qed.

Lemma D_linear k t : derivable_pt_lim (fun s => k * s) t k.
Proof.
  apply (D_eq _ _ (0 * t + k * 1)); [|ring].
  apply (D_mult (fun _ => k) (fun s => s)); [apply D_const | apply derivable_pt_lim_id].
Qed.

Lemma D_cos k t : derivable_pt_lim (fun s => cos (k * s)) t (- k * sin (k * t)).
Proof.
  apply (D_eq _ _ (- sin (k * t) * k)); [|ring].
  apply (derivable_pt_lim_comp (fun s => k * s) cos);
    [apply D_linear | apply derivable_pt_lim_cos].
Qed.

Lemma D_sin k t : derivable_pt_lim (fun s => sin (k * s)) t (k * cos (k * t)).
Proof.
  apply (D_eq _ _ (cos (k * t) * k)); [|ring].
  apply (derivable_pt_lim_comp (fun s => k * s) sin);
    [apply D_linear | apply derivable_pt_lim_sin].
Qed.

Ltac differentiate :=
  eapply D_eq;
  [ repeat first
      [ apply D_cos | apply D_sin | apply D_const | apply D_linear
      | apply D_plus | apply D_minus | apply D_opp | apply D_mult ]
  | cbv beta; rewrite ?mult_IZR, ?opp_IZR; ring ].

Ltac unfold_curve :=
  unfold position, velocity, acceleration, partA, partB, partC, partD,
    R_major, p_twists, q_loops; cbn [rx ry rz].

Lemma velocity_x t : derivable_pt_lim (fun s => rx (position s)) t (rx (velocity t)).
Proof. unfold_curve. differentiate. Qed.

Lemma velocity_y t : derivable_pt_lim (fun s => ry (position s)) t (ry (velocity t)).
Proof. unfold_curve. differentiate. Qed.

Lemma velocity_z t : derivable_pt_lim (fun s => rz (position s)) t (rz (velocity t)).
Proof. unfold_curve. differentiate. Qed.

Lemma acceleration_x t :
  derivable_pt_lim (fun s => rx (velocity s)) t (rx (acceleration t)).
Proof. unfold_curve. differentiate. Qed.

Lemma acceleration_y t :
  derivable_pt_lim (fun s => ry (velocity s)) t (ry (acceleration t)).
Proof. unfold_curve. differentiate. Qed.

Lemma acceleration_z t :
  derivable_pt_lim (fun s => rz (velocity s)) t (rz (acceleration t)).
Proof. unfold_curve. differentiate. Qed.

(** The two product-rule contributions of each component of the second
    derivative: the derivatives of the two terms of the first derivative. *)
Lemma partA_contribution t : derivable_pt_lim dx_carrier_term t (partA t).
Proof. unfold dx_carrier_term. unfold_curve. differentiate. Qed.

Lemma partB_contribution t : derivable_pt_lim dx_envelope_term t (partB t).
Proof. unfold dx_envelope_term. unfold_curve. differentiate. Qed.

Lemma partC_contribution t : derivable_pt_lim dy_carrier_term t (partC t).
Proof. unfold dy_carrier_term. unfold_curve. differentiate. Qed.

Lemma partD_contribution t : derivable_pt_lim dy_envelope_term t (partD t).
Proof. unfold dy_envelope_term. unfold_curve. differentiate. Qed.

Lemma position_formula t : position t = mkV3R (knot_x t) (knot_y t) (knot_z t).
Proof. reflexivity. Qed.

Lemma knot_x_derivative : is_derivative knot_x (fun s => rx (velocity s)).
Proof. intros s. exact (velocity_x s). Qed.

Lemma knot_y_derivative : is_derivative knot_y (fun s => ry (velocity s)).
Proof. intros s. exact (velocity_y s). Qed.

Lemma knot_z_derivative : is_derivative knot_z (fun s => rz (velocity s)).
Proof. intros s. exact (velocity_z s). Qed.

Lemma knot_x_contributions t :
  sum_of_contributions (fun s => rx (velocity s)) dx_carrier_term dx_envelope_term
    t (partA t) (partB t) (rx (acceleration t)).
Proof.
  split; [|split; [apply partA_contribution|split; [apply partB_contribution|reflexivity]]].
  intros s. unfold dx_carrier_term, dx_envelope_term. unfold_curve. ring.
Qed.

Lemma knot_y_contributions t :
  sum_of_contributions (fun s => ry (velocity s)) dy_carrier_term dy_envelope_term
    t (partC t) (partD t) (ry (acceleration t)).
Proof.
  split; [|split; [apply partC_contribution|split; [apply partD_contribution|reflexivity]]].
  intros s. unfold dy_carrier_term, dy_envelope_term. unfold_curve. ring.
Qed.

Lemma torus_eval_buffer freshV buf t d :
  (0 <= d)%Z ->
  exists p0,
    setDim freshV (d + 1) buf = Some p0
    /\ eval freshV buf t d
       = Some (write_if (1 <? d)%Z 2 (acceleration t)
                 (write_if (0 <? d)%Z 1 (velocity t) (<[0%nat := position t]> p0))).
Proof.
  intros Hd. destruct (setDim_nonneg freshV (d + 1) buf) as [p0 Hp0]; [lia|].
  exists p0. split; [exact Hp0|].
  assert (Hdim := setDim_length _ _ _ _ Hp0).
  unfold eval. rewrite Hp0. cbn [mbind option_bind].
  rewrite dv_set_inbounds by lia. cbn [mbind option_bind].
  destruct (Z.ltb_spec 0 d) as [H0|H0].
  - rewrite dv_set_inbounds by (rewrite getDim_insert; lia). cbn [mbind option_bind].
    destruct (Z.ltb_spec 1 d) as [H1|H1]; [|reflexivity].
    rewrite dv_set_inbounds by (rewrite !getDim_insert; lia). reflexivity.
  - cbn [mbind option_bind]. destruct (Z.ltb_spec 1 d) as [H1|H1]; [lia|reflexivity].
Qed.

(** C9. For every parameter [t], [TorusKnot::eval] with R=2, p=2, q=3
    returns the position [((R+cos(qt))cos(pt), (R+cos(qt))sin(pt), sin(qt))];
    when [d >= 1] the first-derivative vector is the exact componentwise
    derivative of that position (in particular [z' = q cos(qt)]); and when
    [d >= 2] the second-derivative vector is the exact second derivative of
    the position, the x and y components being the sum of the two
    product-rule contributions. *)
Theorem eval_exact_derivatives freshV buf t d :
  (0 <= d)%Z ->
  exists p,
    eval freshV buf t d = Some p
    /\ getDim p = (d + 1)%Z
    /\ dv_get p 0 = Some (mkV3R (knot_x t) (knot_y t) (knot_z t))
    /\ ((1 <= d)%Z ->
        dv_get p 1 = Some (velocity t)
        /\ is_derivative knot_x (fun s => rx (velocity s))
        /\ is_derivative knot_y (fun s => ry (velocity s))
        /\ is_derivative knot_z (fun s => rz (velocity s))
        /\ rz (velocity t) = 3 * cos (3 * t))
    /\ ((2 <= d)%Z ->
        dv_get p 2 = Some (acceleration t)
        /\ is_second_derivative_at knot_x t (rx (acceleration t))
        /\ is_second_derivative_at knot_y t (ry (acceleration t))
        /\ is_second_derivative_at knot_z t (rz (acceleration t))
        /\ sum_of_contributions (fun s => rx (velocity s))
             dx_carrier_term dx_envelope_term t (partA t) (partB t)
             (rx (acceleration t))
        /\ sum_of_contributions (fun s => ry (velocity s))
             dy_carrier_term dy_envelope_term t (partC t) (partD t)
             (ry (acceleration t))).
Proof.
  intros Hd. destruct (torus_eval_buffer freshV buf t d Hd) as (p0 & Hp0 & Hev).
  assert (Hdim := setDim_length _ _ _ _ Hp0).
  assert (Hvel : is_derivative knot_x (fun s => rx (velocity s))
                 /\ is_derivative knot_y (fun s => ry (velocity s))
                 /\ is_derivative knot_z (fun s => rz (velocity s))
                 /\ rz (velocity t) = 3 * cos (3 * t)).
  { split; [apply knot_x_derivative|]. split; [apply knot_y_derivative|].
    split; [apply knot_z_derivative|reflexivity]. }
  assert (Hacc : is_second_derivative_at knot_x t (rx (acceleration t))
                 /\ is_second_derivative_at knot_y t (ry (acceleration t))
                 /\ is_second_derivative_at knot_z t (rz (acceleration t))
                 /\ sum_of_contributions (fun s => rx (velocity s))
                      dx_carrier_term dx_envelope_term t (partA t) (partB t)
                      (rx (acceleration t))
                 /\ sum_of_contributions (fun s => ry (velocity s))
                      dy_carrier_term dy_envelope_term t (partC t) (partD t)
                      (ry (acceleration t))).
  { split; [exists (fun s => rx (velocity s)); split;
              [apply knot_x_derivative | apply acceleration_x]|].
    split; [exists (fun s => ry (velocity s)); split;
              [apply knot_y_derivative | apply acceleration_y]|].
    split; [exists (fun s => rz (velocity s)); split;
              [apply knot_z_derivative | apply acceleration_z]|].
    split; [apply knot_x_contributions | apply knot_y_contributions]. }
  eexists. split; [exact Hev|].
  destruct (Z.ltb_spec 0 d) as [H0|H0]; destruct (Z.ltb_spec 1 d) as [H1|H1];
    try lia; cbn [write_if].
  - split; [now rewrite !getDim_insert|]. split; [|split].
    + change 2%nat with (Z.to_nat 2). rewrite dv_get_insert by (rewrite !getDim_insert; lia).
      change 1%nat with (Z.to_nat 1). rewrite dv_get_insert by (rewrite !getDim_insert; lia).
      change 0%nat with (Z.to_nat 0). rewrite dv_get_insert by lia. reflexivity.
    + intros _. split; [|exact Hvel].
      change 2%nat with (Z.to_nat 2).
      rewrite dv_get_insert by (rewrite !getDim_insert; lia).
      change 1%nat with (Z.to_nat 1).
      rewrite dv_get_insert by (rewrite !getDim_insert; lia). reflexivity.
    + intros _. split; [|exact Hacc].
      change 2%nat with (Z.to_nat 2).
      rewrite dv_get_insert by (rewrite !getDim_insert; lia). reflexivity.
  - split; [now rewrite !getDim_insert|]. split; [|split].
    + change 1%nat with (Z.to_nat 1). rewrite dv_get_insert by (rewrite !getDim_insert; lia).
      change 0%nat with (Z.to_nat 0). rewrite dv_get_insert by lia. reflexivity.
    + intros _. split; [|exact Hvel].
      change 1%nat with (Z.to_nat 1).
      rewrite dv_get_insert by (rewrite !getDim_insert; lia). reflexivity.
    + intros H2. lia.
  - split; [now rewrite !getDim_insert|]. split; [|split].
    + change 0%nat with (Z.to_nat 0). rewrite dv_get_insert by lia. reflexivity.
    + intros H. lia.
    + intros H. lia.
Qed.

Lemma eval_exact_derivatives_witness :
  exists p, eval (fun _ => mkV3R 0 0 0) [] 0 2 = Some p /\ getDim p = 3%Z.
Proof.
  destruct (eval_exact_derivatives (fun _ => mkV3R 0 0 0) [] 0 2) as (p & Hev & Hdim & _);
    [lia|].
  exists p. split; [exact Hev | exact Hdim].
Defined.

(** ** Further properties *)













Lemma sin2_cos2_at x : sin x * sin x + cos x * cos x = 1.
Proof. pose proof (sin2_cos2 x) as H. unfold Rsqr in H. exact H. Qed.

(** X19. Every position lies on the torus of major radius 2 and minor radius
    1 around the z axis: [(x^2 + y^2 + z^2 + R^2 - 1)^2 = 4 R^2 (x^2 + y^2)]
    with [R = 2]; in particular [|z| <= 1]. *)
Theorem position_on_torus t :
  let x := rx (position t) in
  let y := ry (position t) in
  let z := rz (position t) in
  (x * x + y * y + z * z + R_major * R_major - 1)
  * (x * x + y * y + z * z + R_major * R_major - 1)
  = 4 * R_major * R_major * (x * x + y * y)
  /\ -1 <= z <= 1.
Proof.
  unfold_curve. cbv zeta. split.
  - pose proof (sin2_cos2_at (2 * t)) as H2. pose proof (sin2_cos2_at (3 * t)) as H3.
    set (c2 := cos (2 * t)) in *. set (s2 := sin (2 * t)) in *.
    set (c3 := cos (3 * t)) in *. set (s3 := sin (3 * t)) in *.
    replace ((2 + c3) * c2 * ((2 + c3) * c2) + (2 + c3) * s2 * ((2 + c3) * s2))
      with ((2 + c3) * (2 + c3) * (s2 * s2 + c2 * c2)) by ring.
    rewrite H2.
    replace (s3 * s3) with (1 - c3 * c3) by (rewrite <- H3; ring).
    ring.
  - pose proof (SIN_bound (3 * t)). tauto.
Qed.

(** X20. The squared speed is [p^2 (R + cos(qt))^2 + q^2], at least 13: the
    first derivative never vanishes. *)
Theorem velocity_never_zero t :
  norm2 (velocity t) = 4 * (2 + cos (3 * t)) * (2 + cos (3 * t)) + 9
  /\ 13 <= norm2 (velocity t)
  /\ velocity t <> mkV3R 0 0 0.
Proof.
  assert (E : norm2 (velocity t) = 4 * (2 + cos (3 * t)) * (2 + cos (3 * t)) + 9).
  { unfold norm2. unfold_curve. rewrite ?mult_IZR, ?opp_IZR.
    pose proof (sin2_cos2_at (2 * t)) as H2. pose proof (sin2_cos2_at (3 * t)) as H3.
    set (c2 := cos (2 * t)) in *. set (s2 := sin (2 * t)) in *.
    set (c3 := cos (3 * t)) in *. set (s3 := sin (3 * t)) in *.
    replace (4 * (2 + c3) * (2 + c3) + 9)
      with (4 * (2 + c3) * (2 + c3) * (s2 * s2 + c2 * c2)
            + 9 * (s3 * s3) * (s2 * s2 + c2 * c2) + 9 * (c3 * c3))
      by (rewrite H2; replace (c3 * c3) with (1 - s3 * s3) by (rewrite <- H3; ring); ring).
    ring. }
  assert (B : 13 <= norm2 (velocity t)).
  { rewrite E. pose proof (COS_bound (3 * t)) as [Hc _].
    assert (1 <= 2 + cos (3 * t)) by Lra.lra.
    assert (1 * 1 <= (2 + cos (3 * t)) * (2 + cos (3 * t)))
      by (apply Rmult_le_compat; Lra.lra).
    Lra.lra. }
  split; [exact E|]. split; [exact B|].
  intros H. rewrite H in B. unfold norm2 in B. cbn [rx ry rz] in B. Lra.lra.
Qed.

(** X21. [eval] writes the slots 0, 1 and 2 only: for [d > 2] the slots
    [3 .. d] are those that [setDim(d + 1)] left in the buffer. *)
Theorem eval_higher_slots_untouched freshV buf t d :
  (2 < d)%Z ->
  exists p0 p,
    setDim freshV (d + 1) buf = Some p0
    /\ eval freshV buf t d = Some p
    /\ getDim p = (d + 1)%Z
    /\ forall j, (3 <= j <= d)%Z -> dv_get p j = dv_get p0 j.
Proof.
  intros Hd. destruct (torus_eval_buffer freshV buf t d ltac:(lia)) as (p0 & Hp0 & Hev).
  assert (Hdim := setDim_length _ _ _ _ Hp0).
  exists p0. eexists. split; [exact Hp0|]. split; [exact Hev|].
  destruct (Z.ltb_spec 0 d); [|lia]. destruct (Z.ltb_spec 1 d); [|lia].
  cbn [write_if]. split; [now rewrite !getDim_insert|].
  intros j Hj.
  change 2%nat with (Z.to_nat 2). rewrite dv_get_insert by (rewrite !getDim_insert; lia).
  change 1%nat with (Z.to_nat 1). rewrite dv_get_insert by (rewrite !getDim_insert; lia).
  change 0%nat with (Z.to_nat 0). rewrite dv_get_insert by lia.
  destruct (Z.eqb_spec 2 j), (Z.eqb_spec 1 j), (Z.eqb_spec 0 j); try lia. reflexivity.
Qed.

Lemma eval_higher_slots_untouched_witness :
  exists p0 p,
    setDim (fun _ => mkV3R 1 1 1) (3 + 1) [] = Some p0
    /\ eval (fun _ => mkV3R 1 1 1) [] 0 3 = Some p
    /\ getDim p = (3 + 1)%Z
    /\ forall j, (3 <= j <= 3)%Z -> dv_get p j = dv_get p0 j.
Proof. apply (eval_higher_slots_untouched (fun _ => mkV3R 1 1 1) [] 0 3). lia. Defined.

End TorusKnot.
